(** * Falling-sand simulation: the [Grid] engine of sand-game.js (enhanced variant)

    A shallow embedding of the [Grid] class: the material registry, the cell
    store ([set], [get], [swap], [canDisplace]), the shape tools
    ([setCircle], [drawLine], [drawRect]) and the update engine ([update] and
    the per-material rules), followed by the properties proved about them.

    Modelling conventions.
    - JS numbers that hold coordinates, indices and lifespans are integers
      ([Z]); densities and temperatures are modelled as exact rationals ([Q]),
      so floating-point rounding is abstracted away.
    - A JS array is a [list]; [aget] reads an index ([None] is JS's
      [undefined], also for negative indices), [aset] and [amod] write one.
      Every array write of the engine sits behind a bounds test in the source;
      the model's writes leave the list unchanged outside its range.
    - Every slot of [metadata] holds its own object in the source (they are
      created one by one by [map]), and [swap] exchanges the references.  The
      model stores the records by value and, where a method keeps a reference
      ([const meta = this.metadata[i]]), follows the index at which that
      object currently lives.
    - [Math.random()] is the next value of an arbitrary oracle
      [nat -> Q]; the number of calls made so far is part of the state.
    - Filling an array can fail for want of memory; the constructor takes
      the limits of the engine as a [Heap]. *)

From Stdlib Require Import ZArith QArith Qround Lia.
From stdpp Require Import base list.

Open Scope Z_scope.

(** ** Material registry *)

Inductive Material : Set :=
  | EMPTY | SAND | WATER | WALL | FIRE | OIL | PLANT | ACID | ICE | STEAM.

#[global] Instance Material_eq_dec : EqDecision Material.
Proof. solve_decision. Defined.

(** The numeric ids of [this.materials]. *)
Definition material_id (m : Material) : Z :=
  match m with
  | EMPTY => 0 | SAND => 1 | WATER => 2 | WALL => 3 | FIRE => 4
  | OIL => 5 | PLANT => 6 | ACID => 7 | ICE => 8 | STEAM => 9
  end.

Record Properties : Set := mkProperties {
  density : Q;
  flammable : bool;
  lifespan : Z;
  growthRate : option Q;
  dissolveRate : option Q;
  meltRate : option Q
}.

Definition properties (m : Material) : Properties :=
  match m with
  | EMPTY => mkProperties 0 false 0 None None None
  | SAND => mkProperties 3 false 0 None None None
  | WATER => mkProperties 2 false 0 None None None
  | WALL => mkProperties 10 false 0 None None None
  | FIRE => mkProperties 0.5 false 100 None None None
  | OIL => mkProperties 1.5 true 0 None None None
  | PLANT => mkProperties 1 true 0 (Some 0.01%Q) None None
  | ACID => mkProperties 2.2 false 500 None (Some 0.2%Q) None
  | ICE => mkProperties 1.8 false 0 None None (Some 0.01%Q)
  | STEAM => mkProperties 0.3 false 200 None None None
  end.

(** A rate field that is only read for the materials that define it. *)
Definition rate (o : option Q) : Q := default 0%Q o.

(** [a < b] on numbers. *)
Definition Qltb (a b : Q) : bool := negb (Qle_bool b a).

(** ** Arrays *)

Definition aget {A} (l : list A) (i : Z) : option A :=
  if i <? 0 then None else l !! Z.to_nat i.

Definition aset {A} (l : list A) (i : Z) (v : A) : list A :=
  if i <? 0 then l else <[Z.to_nat i := v]> l.

Definition amod {A} (l : list A) (i : Z) (f : A → A) : list A :=
  if i <? 0 then l else alter f (Z.to_nat i) l.

(** [t = a[i]; a[i] = a[j]; a[j] = t] at two indices of the array. *)
Definition aswap {A} (l : list A) (i j : Z) : list A :=
  match aget l i, aget l j with
  | Some a, Some b => aset (aset l i b) j a
  | _, _ => l
  end.

(** [new Array(n)] throws a RangeError unless [n] is a valid array length.
    [.fill(v)] and [.map(f)] then store every element, and abort when the
    engine cannot hold that many.  How many elements fit is a matter of the
    engine and its heap, not of the program: a [Heap] gives the limit for an
    array of numbers and the limit for an array of objects. *)
Definition MAX_ARRAY_LENGTH : Z := 2 ^ 32 - 1.

Record Heap : Set := mkHeap { max_numbers : N; max_objects : N }.

(** [new Array(n).fill(v)] with room for [capacity] elements; [None] when
    the length is refused or the elements do not fit. *)
Definition new_Array {A} (capacity : N) (n : Z) (v : A) : option (list A) :=
  if (0 <=? n) && (n <=? MAX_ARRAY_LENGTH) && (n <=? Z.of_N capacity)
  then Some (replicate (Z.to_nat n) v)
  else None.

(** ** Cell store *)

Record Meta : Set := mkMeta { life : Z; temp : Q }.

Definition set_life (v : Z) (m : Meta) : Meta := mkMeta v (temp m).
Definition set_temp (v : Q) (m : Meta) : Meta := mkMeta (life m) v.

(** Room temperature, no lifespan: the metadata of a fresh cell. *)
Definition ambient : Meta := mkMeta 0 20.

(** The owning game object, read by the engine for [gravityStrength]. *)
Record SandGame : Set := mkSandGame { gravityStrength : Z }.

Record Grid : Set := mkGrid {
  width : Z;
  height : Z;
  grid : list Material;
  metadata : list Meta;
  parent : SandGame
}.

Definition with_grid (g : Grid) (cells : list Material) : Grid :=
  mkGrid (width g) (height g) cells (metadata g) (parent g).

Definition with_metadata (g : Grid) (metas : list Meta) : Grid :=
  mkGrid (width g) (height g) (grid g) metas (parent g).

(** [this.grid.length] *)
Definition grid_length (g : Grid) : Z := Z.of_nat (length (grid g)).

(** [constructor(width, height, parent)]; [None] when an array allocation
    throws or aborts. *)
Definition new_Grid (heap : Heap) (w h : Z) (p : SandGame) : option Grid :=
  cells ← new_Array (max_numbers heap) (w * h) EMPTY;
  metas ← new_Array (max_objects heap) (w * h) ambient;
  Some (mkGrid w h cells metas p).

Definition clear (heap : Heap) (g : Grid) : option Grid :=
  cells ← new_Array (max_numbers heap) (width g * height g) EMPTY;
  metas ← new_Array (max_objects heap) (width g * height g) ambient;
  Some (mkGrid (width g) (height g) cells metas (parent g)).

Definition inBounds (g : Grid) (x y : Z) : bool :=
  (0 <=? x) && (x <? width g) && (0 <=? y) && (y <? height g).

(** [this.grid[index] = value] and the two metadata field writes. *)
Definition write_cell (g : Grid) (index : Z) (value : Material) : Grid :=
  with_grid g (aset (grid g) index value).

Definition write_life (g : Grid) (index : Z) (v : Z) : Grid :=
  with_metadata g (amod (metadata g) index (set_life v)).

Definition write_temp (g : Grid) (index : Z) (v : Q) : Grid :=
  with_metadata g (amod (metadata g) index (set_temp v)).

Definition set (g : Grid) (x y : Z) (value : Material) : Grid :=
  if inBounds g x y then
    let index := y * width g + x in
    let g := write_cell g index value in
    match value with
    | FIRE =>
        let g := write_temp g index 400 in
        write_life g index (lifespan (properties value))
    | ACID => write_life g index (lifespan (properties value))
    | STEAM =>
        let g := write_temp g index 110 in
        write_life g index (lifespan (properties value))
    | _ => g
    end
  else g.

(** The value returned for a coordinate outside the grid. *)
Definition OUT_OF_BOUNDS : Z := -1.

(** [get(x, y)]: [Some id] is the number returned; [Some OUT_OF_BOUNDS]
    outside the grid.  [None] stands for [undefined], which the in-bounds
    read only yields on a grid whose array is shorter than
    [width * height]. *)
Definition get (g : Grid) (x y : Z) : option Z :=
  if inBounds g x y then material_id <$> aget (grid g) (y * width g + x)
  else Some OUT_OF_BOUNDS.

Definition getMeta (g : Grid) (x y : Z) : option Meta :=
  if inBounds g x y then aget (metadata g) (y * width g + x) else None.

Definition swap (g : Grid) (i1 i2 : Z) : Grid :=
  if (0 <=? i1) && (i1 <? grid_length g) && (0 <=? i2) && (i2 <? grid_length g)
  then mkGrid (width g) (height g) (aswap (grid g) i1 i2)
              (aswap (metadata g) i1 i2) (parent g)
  else g.

(** [this.grid[index] === type], false on [undefined]. *)
Definition cell_is (g : Grid) (index : Z) (type : Material) : bool :=
  bool_decide (aget (grid g) index = Some type).

Definition isEmpty (g : Grid) (index : Z) : bool :=
  if (index <? 0) || (index >=? grid_length g) then false
  else cell_is g index EMPTY.

Definition isType (g : Grid) (index : Z) (type : Material) : bool :=
  if (index <? 0) || (index >=? grid_length g) then false
  else cell_is g index type.

(** [i % width] is JS's truncating remainder, [Math.floor(i / width)] the
    floor of the quotient. *)
Definition canDisplace (g : Grid) (i1 i2 : Z) : bool :=
  if negb (inBounds g (Z.rem i1 (width g)) (i1 / width g))
     || negb (inBounds g (Z.rem i2 (width g)) (i2 / width g))
  then false
  else if cell_is g i2 EMPTY then true
  else if cell_is g i2 WALL then false
  else match aget (grid g) i1, aget (grid g) i2 with
       | Some m1, Some m2 =>
           Qltb (density (properties m2)) (density (properties m1))
       | _, _ => false
       end.

(** [this.metadata[index]], read by the engine at indices of the grid only. *)
Definition meta_at (g : Grid) (index : Z) : Meta :=
  default ambient (aget (metadata g) index).

(** [this.metadata[index].temp += d] *)
Definition add_temp (g : Grid) (index : Z) (d : Q) : Grid :=
  with_metadata g (amod (metadata g) index (λ m, set_temp (temp m + d) m)).

(** [this.metadata[index].life--] *)
Definition dec_life (g : Grid) (index : Z) : Grid :=
  with_metadata g (amod (metadata g) index (λ m, set_life (life m - 1) m)).

(** The in-bounds cells of the 8-neighbourhood, rows first. *)
Definition offsets : list (Z * Z) :=
  [(-1, -1); (0, -1); (1, -1); (-1, 0); (1, 0); (-1, 1); (0, 1); (1, 1)].

Definition getNeighborIndices (g : Grid) (x y : Z) : list Z :=
  omap (λ d : Z * Z,
          let nx := x + d.1 in
          let ny := y + d.2 in
          if inBounds g nx ny then Some (ny * width g + nx) else None)
       offsets.

Definition isNearMaterial (g : Grid) (x y : Z) (materialType : Material) : bool :=
  existsb (λ neighborIdx,
             (0 <=? neighborIdx) && (neighborIdx <? grid_length g)
             && cell_is g neighborIdx materialType)
          (getNeighborIndices g x y).

(** ** The simulation monad: the grid and the random source *)

Record World : Set := mkWorld { this : Grid; draws : nat }.

Definition Sim (A : Type) : Type := World → A * World.

Definition ret {A} (a : A) : Sim A := λ w, (a, w).

Definition bind {A B} (m : Sim A) (k : A → Sim B) : Sim B :=
  λ w, k (m w).1 (m w).2.

Declare Scope sim_scope.
Delimit Scope sim_scope with sim.
Notation "x <- m ;; k" := (bind m (λ x, k))
  (at level 100, m at next level, k at level 200, right associativity) : sim_scope.
Notation "m ;; k" := (bind m (λ _, k))
  (at level 100, k at level 200, right associativity) : sim_scope.
Open Scope sim_scope.

Definition gets {A} (f : Grid → A) : Sim A := λ w, (f (this w), w).

Definition modify (f : Grid → Grid) : Sim unit :=
  λ w, (tt, mkWorld (f (this w)) (draws w)).

Definition when (b : bool) (m : Sim unit) : Sim unit := if b then m else ret tt.

Fixpoint for_each {A} (l : list A) (body : A → Sim unit) : Sim unit :=
  match l with
  | [] => ret tt
  | a :: l => body a ;; for_each l body
  end.

(** The final state of a computation. *)
Definition exec {A} (m : Sim A) (w : World) : World := (m w).2.

(** [lo, lo+1, ..., hi] and [0, ..., n-1] as the loops enumerate them. *)
Definition from_to (lo hi : Z) : list Z := seqZ lo (hi - lo + 1).
Definition below_n (n : Z) : list Z := seqZ 0 n.

Section Engine.

(** The values [Math.random()] returns, in call order. *)
Variable oracle : nat → Q.

Definition random : Sim Q :=
  λ w, (oracle (draws w), mkWorld (this w) (S (draws w))).

(** [this.grid[i] = FIRE] with the metadata of a fresh flame, as the ignition
    sites write it. *)
Definition ignite (index : Z) : Sim unit :=
  modify (λ t, write_cell t index FIRE) ;;
  modify (λ t, write_life t index (lifespan (properties FIRE))) ;;
  modify (λ t, write_temp t index 400).

Definition to_steam (index : Z) : Sim unit :=
  modify (λ t, write_cell t index STEAM) ;;
  modify (λ t, write_life t index (lifespan (properties STEAM))) ;;
  modify (λ t, write_temp t index 110).

(** *** Helper methods for material interactions *)

Definition heatAndIgniteNearbySources (i x y : Z) : Sim unit :=
  neighbors <- gets (λ t, getNeighborIndices t x y) ;;
  for_each neighbors (λ neighborIdx,
    t <- gets id ;;
    when ((0 <=? neighborIdx) && (neighborIdx <? grid_length t)
          && negb (cell_is t neighborIdx EMPTY))
      (modify (λ t, add_temp t neighborIdx 5) ;;
       match aget (grid t) neighborIdx with
       | Some material =>
           when (flammable (properties material))
             (r <- random ;;
              when (Qltb r 0.1) (ignite neighborIdx))
       | None => ret tt
       end)).

Definition extinguishNearbySources (i x y : Z) : Sim unit :=
  neighbors <- gets (λ t, getNeighborIndices t x y) ;;
  for_each neighbors (λ neighborIdx,
    t <- gets id ;;
    when ((0 <=? neighborIdx) && (neighborIdx <? grid_length t)
          && cell_is t neighborIdx FIRE)
      (r <- random ;;
       when (Qltb r 0.4) (to_steam neighborIdx))).

Definition resistFactor (material : Material) : Q :=
  match material with
  | WALL => 0.1
  | SAND => 0.5
  | _ => 1.0
  end.

Definition dissolveNearbySources (i x y : Z) : Sim unit :=
  neighbors <- gets (λ t, getNeighborIndices t x y) ;;
  for_each neighbors (λ neighborIdx,
    t <- gets id ;;
    when ((0 <=? neighborIdx) && (neighborIdx <? grid_length t))
      match aget (grid t) neighborIdx with
      | Some material =>
          when (negb (bool_decide (material = EMPTY))
                && negb (bool_decide (material = ACID))
                && negb (bool_decide (material = STEAM)))
            (r <- random ;;
             when (Qltb r (rate (dissolveRate (properties ACID))))
               (r' <- random ;;
                when (Qltb r' (rate (dissolveRate (properties ACID))
                               * resistFactor material))
                  (modify (λ t, write_cell t neighborIdx EMPTY))))
      | None => ret tt
      end).

Definition freezeNearbySources (i x y : Z) : Sim unit :=
  neighbors <- gets (λ t, getNeighborIndices t x y) ;;
  for_each neighbors (λ neighborIdx,
    t <- gets id ;;
    when ((0 <=? neighborIdx) && (neighborIdx <? grid_length t)
          && cell_is t neighborIdx WATER)
      (modify (λ t, add_temp t neighborIdx (-1)) ;;
       t <- gets id ;;
       if Qltb (temp (meta_at t neighborIdx)) 0 then
         r <- random ;;
         when (Qltb r 0.1) (modify (λ t, write_cell t neighborIdx ICE))
       else ret tt)).

(** The empty in-bounds neighbours, then one of them picked by
    [Math.floor(Math.random() * neighbors.length)]. *)
Definition growPlant (x y : Z) : Sim unit :=
  neighbors <- gets (λ t,
    omap (λ d : Z * Z,
            let nx := x + d.1 in
            let ny := y + d.2 in
            if inBounds t nx ny
               && bool_decide (get t nx ny = Some (material_id EMPTY))
            then Some (nx, ny) else None)
         offsets) ;;
  when (0 <? Z.of_nat (length neighbors))
    (r <- random ;;
     match aget neighbors (Qfloor (r * inject_Z (Z.of_nat (length neighbors)))) with
     | Some target => modify (λ t, set t target.1 target.2 PLANT)
     | None => ret tt
     end).

(** *** Per-material rules *)

(** [this.swap(a, b); moved = true] *)
Definition move (a b : Z) : Sim bool :=
  modify (λ t, swap t a b) ;; ret true.

(** The body of the gravity loop of [updateSand], for the iterations
    [g, g+1, ...] that remain; [n] bounds their number.  Both [return] and
    [break] leave the loop, after which the method ends. *)
Fixpoint updateSand_loop (n : nat) (g i x y : Z) : Sim unit :=
  match n with
  | O => ret tt
  | S n =>
      t <- gets id ;;
      let currentY := y + g in
      let currentI := i + g * width t in
      if currentY >=? height t - 1 then ret tt else
      let below := currentI + width t in
      let belowLeft := below - 1 in
      let belowRight := below + 1 in
      moved <-
        (if canDisplace t currentI below then move currentI below
         else if (x >? 0) && canDisplace t currentI belowLeft
              then move currentI belowLeft
         else if (x <? width t - 1) && canDisplace t currentI belowRight
              then move currentI belowRight
         else ret false) ;;
      if negb moved then ret tt else updateSand_loop n (g + 1) i x y
  end.

Definition updateSand (i x y : Z) : Sim unit :=
  gravity <- gets (λ t, gravityStrength (parent t)) ;;
  updateSand_loop (Z.to_nat gravity) 0 i x y.

Fixpoint updateWater_loop (n : nat) (g i x y : Z) : Sim unit :=
  match n with
  | O => ret tt
  | S n =>
      t <- gets id ;;
      let currentY := y + g in
      let currentI := i + g * width t in
      let currentX := x in
      if currentY >=? height t - 1 then ret tt else
      let below := currentI + width t in
      let left := currentI - 1 in
      let right := currentI + 1 in
      let belowLeft := below - 1 in
      let belowRight := below + 1 in
      moved <-
        (if canDisplace t currentI below then move currentI below
         else if (currentX >? 0) && canDisplace t currentI belowLeft
              then move currentI belowLeft
         else if (currentX <? width t - 1) && canDisplace t currentI belowRight
              then move currentI belowRight
         else
           r <- random ;;
           if Qltb r 0.5 then
             if (currentX >? 0) && canDisplace t currentI left
             then move currentI left
             else if (currentX <? width t - 1) && canDisplace t currentI right
                  then move currentI right
             else ret false
           else
             if (currentX <? width t - 1) && canDisplace t currentI right
             then move currentI right
             else if (currentX >? 0) && canDisplace t currentI left
                  then move currentI left
             else ret false) ;;
      t <- gets id ;;
      when (Qltb 99 (temp (meta_at t currentI)))
        (r <- random ;; when (Qltb r 0.1) (to_steam currentI)) ;;
      t <- gets id ;;
      when (Qltb (temp (meta_at t currentI)) 0)
        (r <- random ;;
         when (Qltb r 0.05) (modify (λ t, write_cell t currentI ICE))) ;;
      extinguishNearbySources currentI currentX currentY ;;
      if negb moved then ret tt else updateWater_loop n (g + 1) i x y
  end.

Definition updateWater (i x y : Z) : Sim unit :=
  gravity <- gets (λ t, gravityStrength (parent t)) ;;
  updateWater_loop (Z.to_nat gravity) 0 i x y.

Fixpoint updateOil_loop (n : nat) (g i x y : Z) : Sim unit :=
  match n with
  | O => ret tt
  | S n =>
      t <- gets id ;;
      let currentY := y + g in
      let currentI := i + g * width t in
      let currentX := x in
      if currentY >=? height t - 1 then ret tt else
      let below := currentI + width t in
      let left := currentI - 1 in
      let right := currentI + 1 in
      let belowLeft := below - 1 in
      let belowRight := below + 1 in
      moved <-
        (if canDisplace t currentI below then move currentI below
         else
           r1 <- random ;;
           if Qltb r1 0.3 && (currentX >? 0) && canDisplace t currentI belowLeft
           then move currentI belowLeft
           else
             r2 <- random ;;
             if Qltb r2 0.3 && (currentX <? width t - 1)
                && canDisplace t currentI belowRight
             then move currentI belowRight
             else
               r3 <- random ;;
               if Qltb r3 0.3 then
                 r4 <- random ;;
                 if Qltb r4 0.5 && (currentX >? 0) && canDisplace t currentI left
                 then move currentI left
                 else if (currentX <? width t - 1) && canDisplace t currentI right
                      then move currentI right
                 else ret false
               else ret false) ;;
      t <- gets id ;;
      when (Qltb 220 (temp (meta_at t currentI))
            || isNearMaterial t currentX currentY FIRE)
        (r <- random ;; when (Qltb r 0.2) (ignite currentI)) ;;
      if negb moved then ret tt else updateOil_loop n (g + 1) i x y
  end.

Definition updateOil (i x y : Z) : Sim unit :=
  gravity <- gets (λ t, Z.max 1 (gravityStrength (parent t) - 1)) ;;
  updateOil_loop (Z.to_nat gravity) 0 i x y.

(** [meta] is the object found at [i] on entry; after a swap it lives at the
    cell the flame moved to, which is where the last write lands. *)
Definition updateFire (i x y : Z) : Sim unit :=
  modify (λ t, dec_life t i) ;;
  t <- gets id ;;
  if life (meta_at t i) <=? 0 then
    modify (λ t, write_cell t i EMPTY) ;;
    modify (λ t, write_temp t i 20)
  else
    let above := i - width t in
    let aboveLeft := above - 1 in
    let aboveRight := above + 1 in
    meta <-
      (if (y >? 0) && isEmpty t above
       then modify (λ t, swap t i above) ;; ret above
       else if (y >? 0) && (x >? 0) && isEmpty t aboveLeft
            then modify (λ t, swap t i aboveLeft) ;; ret aboveLeft
       else if (y >? 0) && (x <? width t - 1) && isEmpty t aboveRight
            then modify (λ t, swap t i aboveRight) ;; ret aboveRight
       else ret i) ;;
    heatAndIgniteNearbySources i x y ;;
    r <- random ;;
    t <- gets id ;;
    when (Qltb r 0.05 && (y >? 0) && isEmpty t above)
      (modify (λ t, write_cell t above STEAM) ;;
       modify (λ t, write_life t above (lifespan (properties STEAM)))) ;;
    r <- random ;;
    modify (λ t, write_temp t meta (350 + inject_Z (Qfloor (r * 100)))).

Definition updateSteam (i x y : Z) : Sim unit :=
  modify (λ t, dec_life t i) ;;
  t <- gets id ;;
  if (life (meta_at t i) <=? 0) || Qltb (temp (meta_at t i)) 90 then
    (if Qltb (temp (meta_at t i)) 90 then
       r <- random ;;
       if Qltb r 0.2 then modify (λ t, write_cell t i WATER)
       else modify (λ t, write_cell t i EMPTY)
     else modify (λ t, write_cell t i EMPTY)) ;;
    modify (λ t, write_temp t i 20)
  else
    let above := i - width t in
    let left := i - 1 in
    let right := i + 1 in
    let aboveLeft := above - 1 in
    let aboveRight := above + 1 in
    meta <-
      (if (y >? 0) && isEmpty t above
       then modify (λ t, swap t i above) ;; ret above
       else if (y >? 0) && (x >? 0) && isEmpty t aboveLeft
            then modify (λ t, swap t i aboveLeft) ;; ret aboveLeft
       else if (y >? 0) && (x <? width t - 1) && isEmpty t aboveRight
            then modify (λ t, swap t i aboveRight) ;; ret aboveRight
       else
         r <- random ;;
         if Qltb r 0.5 && (x >? 0) && isEmpty t left
         then modify (λ t, swap t i left) ;; ret left
         else if (x <? width t - 1) && isEmpty t right
              then modify (λ t, swap t i right) ;; ret right
         else ret i) ;;
    modify (λ t, add_temp t meta (-0.2)).

Fixpoint updateAcid_loop (n : nat) (g i x y : Z) : Sim unit :=
  match n with
  | O => ret tt
  | S n =>
      t <- gets id ;;
      let currentY := y + g in
      let currentI := i + g * width t in
      let currentX := x in
      if currentY >=? height t - 1 then ret tt else
      let below := currentI + width t in
      let left := currentI - 1 in
      let right := currentI + 1 in
      let belowLeft := below - 1 in
      let belowRight := below + 1 in
      moved <-
        (if canDisplace t currentI below then move currentI below
         else if (currentX >? 0) && canDisplace t currentI belowLeft
              then move currentI belowLeft
         else if (currentX <? width t - 1) && canDisplace t currentI belowRight
              then move currentI belowRight
         else
           r <- random ;;
           if Qltb r 0.7 then
             r' <- random ;;
             if Qltb r' 0.5 && (currentX >? 0) && canDisplace t currentI left
             then move currentI left
             else if (currentX <? width t - 1) && canDisplace t currentI right
                  then move currentI right
             else ret false
           else ret false) ;;
      if negb moved then ret tt else updateAcid_loop n (g + 1) i x y
  end.

Definition updateAcid (i x y : Z) : Sim unit :=
  gravity <- gets (λ t, gravityStrength (parent t)) ;;
  modify (λ t, dec_life t i) ;;
  t <- gets id ;;
  if life (meta_at t i) <=? 0 then modify (λ t, write_cell t i EMPTY)
  else
    dissolveNearbySources i x y ;;
    updateAcid_loop (Z.to_nat gravity) 0 i x y.

Definition updateIce (i x y : Z) : Sim unit :=
  t <- gets id ;;
  when (Qltb 0 (temp (meta_at t i)))
    (let meltChance := (rate (meltRate (properties ICE)) * temp (meta_at t i))%Q in
     r <- random ;;
     when (Qltb r meltChance)
       (modify (λ t, write_cell t i WATER) ;;
        modify (λ t, write_temp t i 2))) ;;
  r <- random ;;
  when (Qltb r 0.02) (freezeNearbySources i x y).

Definition updatePlant (i x y : Z) : Sim unit :=
  t <- gets id ;;
  (if isNearMaterial t x y WATER then
     r <- random ;;
     when (Qltb r (rate (growthRate (properties PLANT)))) (growPlant x y)
   else ret tt) ;;
  t <- gets id ;;
  when (Qltb 150 (temp (meta_at t i)) || isNearMaterial t x y FIRE)
    (r <- random ;; when (Qltb r 0.1) (ignite i)).

Definition updateTemperature (i : Z) : Sim unit :=
  t <- gets id ;;
  if (i <? 0) || (i >=? grid_length t) || cell_is t i EMPTY then ret tt else
  let x := Z.rem i (width t) in
  let y := i / width t in
  for_each (getNeighborIndices t x y) (λ neighborIdx,
    t <- gets id ;;
    when ((0 <=? neighborIdx) && (neighborIdx <? grid_length t)
          && negb (cell_is t neighborIdx EMPTY))
      (let neighborTemp := temp (meta_at t neighborIdx) in
       when (negb (Qeq_bool (temp (meta_at t i)) neighborTemp))
         (let transferAmount := ((temp (meta_at t i) - neighborTemp) * 0.1)%Q in
          modify (λ t, add_temp t i (- (transferAmount * 0.5))) ;;
          modify (λ t, add_temp t neighborIdx (transferAmount * 0.5))))) ;;
  t <- gets id ;;
  when (negb (Qeq_bool (temp (meta_at t i)) 20))
    (modify (λ t, add_temp t i ((20 - temp (meta_at t i)) * 0.001))).

(** *** The tick *)

(** The columns of row [y] in sweep order: left to right on even rows, right
    to left on odd ones. *)
Definition row_order (w y : Z) : list Z :=
  (λ x0, if Z.rem y 2 =? 0 then x0 else w - 1 - x0) <$> below_n w.

Definition falling_rule (i x y : Z) : Sim unit :=
  material <- gets (λ t, aget (grid t) i) ;;
  match material with
  | Some SAND => updateSand i x y
  | Some WATER => updateWater i x y
  | Some OIL => updateOil i x y
  | Some ACID => updateAcid i x y
  | Some ICE => updateIce i x y
  | _ => ret tt
  end.

Definition rising_rule (i x y : Z) : Sim unit :=
  material <- gets (λ t, aget (grid t) i) ;;
  match material with
  | Some FIRE => updateFire i x y
  | Some STEAM => updateSteam i x y
  | Some PLANT => updatePlant i x y
  | _ => ret tt
  end.

(** One row of a pass. *)
Definition sweep_row (rule : Z → Z → Z → Sim unit) (w y : Z) : Sim unit :=
  for_each (row_order w y) (λ x, rule (y * w + x) x y).

Definition update : Sim unit :=
  w <- gets width ;;
  h <- gets height ;;
  for_each (reverse (below_n h)) (sweep_row falling_rule w) ;;
  for_each (below_n h) (sweep_row rising_rule w) ;;
  len <- gets grid_length ;;
  for_each (below_n len) updateTemperature.

(** [n] ticks in a row. *)
Fixpoint ticks (n : nat) : Sim unit :=
  match n with
  | O => ret tt
  | S n => update ;; ticks n
  end.

(** *** Shape tools *)

Definition setCircle (x y : Z) (material : Material) (radius : Z)
    (probability : Q) : Sim unit :=
  for_each (from_to (- radius) radius) (λ j,
    for_each (from_to (- radius) radius) (λ i,
      when (i * i + j * j <=? radius * radius)
        (r <- random ;;
         when (Qltb r probability)
           (let newX := x + i in
            let newY := y + j in
            t <- gets id ;;
            when (inBounds t newX newY
                  && bool_decide (get t newX newY = Some (material_id EMPTY)))
              (modify (λ t, set t newX newY material)))))).

(** The [while (true)] loop of [drawLine], run for at most [n] iterations;
    the result tells whether the loop reached its [break]. *)
Fixpoint drawLine_loop (n : nat) (x1 y1 x2 y2 : Z) (material : Material)
    (thickness dx dy sx sy err : Z) : Sim bool :=
  match n with
  | O => ret false
  | S n =>
      setCircle x1 y1 material thickness 1 ;;
      if (x1 =? x2) && (y1 =? y2) then ret true else
      let e2 := 2 * err in
      let err' := if e2 >? - dy then err - dy else err in
      let x1' := if e2 >? - dy then x1 + sx else x1 in
      let err'' := if e2 <? dx then err' + dx else err' in
      let y1' := if e2 <? dx then y1 + sy else y1 in
      drawLine_loop n x1' y1' x2 y2 material thickness dx dy sx sy err''
  end.

Definition drawLine (n : nat) (x1 y1 x2 y2 : Z) (material : Material)
    (thickness : Z) : Sim bool :=
  let dx := Z.abs (x2 - x1) in
  let dy := Z.abs (y2 - y1) in
  let sx := if x1 <? x2 then 1 else -1 in
  let sy := if y1 <? y2 then 1 else -1 in
  drawLine_loop n x1 y1 x2 y2 material thickness dx dy sx sy (dx - dy).

Definition drawRect (x1 y1 x2 y2 : Z) (material : Material) (filled : bool)
    : Sim unit :=
  let startX := Z.min x1 x2 in
  let endX := Z.max x1 x2 in
  let startY := Z.min y1 y2 in
  let endY := Z.max y1 y2 in
  if filled then
    for_each (from_to startY endY) (λ y,
      for_each (from_to startX endX) (λ x,
        t <- gets id ;;
        when (inBounds t x y
              && bool_decide (get t x y = Some (material_id EMPTY)))
          (modify (λ t, set t x y material))))
  else
    for_each (from_to startX endX) (λ x,
      t <- gets id ;;
      when (inBounds t x startY) (modify (λ t, set t x startY material)) ;;
      when (inBounds t x endY) (modify (λ t, set t x endY material))) ;;
    for_each (from_to (startY + 1) (endY - 1)) (λ y,
      t <- gets id ;;
      when (inBounds t startX y) (modify (λ t, set t startX y material)) ;;
      when (inBounds t endX y) (modify (λ t, set t endX y material))).

End Engine.


(** * The basic variant (js/sand-game.js)

    The first version of the [Grid] class: four materials, no metadata, one
    pass per tick.  Its methods are modelled again from its own source. *)

Module Basic.

Inductive Material : Set := EMPTY | SAND | WATER | WALL.

#[global] Instance Material_eq_dec : EqDecision Material.
Proof. solve_decision. Defined.

Definition material_id (m : Material) : Z :=
  match m with EMPTY => 0 | SAND => 1 | WATER => 2 | WALL => 3 end.

Record Grid : Set := mkGrid {
  width : Z;
  height : Z;
  grid : list Material;
  parent : SandGame
}.

Definition grid_length (g : Grid) : Z := Z.of_nat (length (grid g)).

Definition new_Grid (heap : Heap) (w h : Z) (p : SandGame) : option Grid :=
  cells ← new_Array (max_numbers heap) (w * h) EMPTY;
  Some (mkGrid w h cells p).

Definition clear (heap : Heap) (g : Grid) : option Grid :=
  cells ← new_Array (max_numbers heap) (width g * height g) EMPTY;
  Some (mkGrid (width g) (height g) cells (parent g)).

Definition inBounds (g : Grid) (x y : Z) : bool :=
  (0 <=? x) && (x <? width g) && (0 <=? y) && (y <? height g).

Definition set (g : Grid) (x y : Z) (value : Material) : Grid :=
  if inBounds g x y
  then mkGrid (width g) (height g) (aset (grid g) (y * width g + x) value) (parent g)
  else g.

Definition get (g : Grid) (x y : Z) : option Z :=
  if inBounds g x y then material_id <$> aget (grid g) (y * width g + x)
  else Some OUT_OF_BOUNDS.

Definition swap (g : Grid) (i1 i2 : Z) : Grid :=
  if (0 <=? i1) && (i1 <? grid_length g) && (0 <=? i2) && (i2 <? grid_length g)
  then mkGrid (width g) (height g) (aswap (grid g) i1 i2) (parent g)
  else g.

Definition isEmpty (g : Grid) (index : Z) : bool :=
  if (index <? 0) || (index >=? grid_length g) then false
  else bool_decide (aget (grid g) index = Some EMPTY).

Definition isWater (g : Grid) (index : Z) : bool :=
  if (index <? 0) || (index >=? grid_length g) then false
  else bool_decide (aget (grid g) index = Some WATER).

Record World : Set := mkWorld { this : Grid; draws : nat }.

Definition Sim (A : Type) : Type := World → A * World.

Definition ret {A} (a : A) : Sim A := λ w, (a, w).

Definition bind {A B} (m : Sim A) (k : A → Sim B) : Sim B :=
  λ w, k (m w).1 (m w).2.

Declare Scope basic_scope.
Notation "x <- m ;; k" := (bind m (λ x, k))
  (at level 100, m at next level, k at level 200, right associativity) : basic_scope.
Notation "m ;; k" := (bind m (λ _, k))
  (at level 100, k at level 200, right associativity) : basic_scope.
#[local] Open Scope basic_scope.

Definition gets {A} (f : Grid → A) : Sim A := λ w, (f (this w), w).

Definition modify (f : Grid → Grid) : Sim unit :=
  λ w, (tt, mkWorld (f (this w)) (draws w)).

Definition when (b : bool) (m : Sim unit) : Sim unit := if b then m else ret tt.

Fixpoint for_each {A} (l : list A) (body : A → Sim unit) : Sim unit :=
  match l with
  | [] => ret tt
  | a :: l => body a ;; for_each l body
  end.

Definition exec {A} (m : Sim A) (w : World) : World := (m w).2.

Section Engine.

Variable oracle : nat → Q.

Definition random : Sim Q :=
  λ w, (oracle (draws w), mkWorld (this w) (S (draws w))).

Definition setCircle (x y : Z) (material : Material) (radius : Z)
    (probability : Q) : Sim unit :=
  for_each (from_to (- radius) radius) (λ j,
    for_each (from_to (- radius) radius) (λ i,
      when (i * i + j * j <=? radius * radius)
        (r <- random ;;
         when (Qltb r probability)
           (let newX := x + i in
            let newY := y + j in
            t <- gets id ;;
            when (inBounds t newX newY
                  && bool_decide (get t newX newY = Some (material_id EMPTY)))
              (modify (λ t, set t newX newY material)))))).

Definition move (a b : Z) : Sim bool :=
  modify (λ t, swap t a b) ;; ret true.

Fixpoint updateSand_loop (n : nat) (g i x y : Z) : Sim unit :=
  match n with
  | O => ret tt
  | S n =>
      t <- gets id ;;
      let currentY := y + g in
      let currentI := i + g * width t in
      if currentY >=? height t - 1 then ret tt else
      let below := currentI + width t in
      let belowLeft := below - 1 in
      let belowRight := below + 1 in
      moved <-
        (if isEmpty t below || isWater t below then move currentI below
         else if (x >? 0) && (isEmpty t belowLeft || isWater t belowLeft)
              then move currentI belowLeft
         else if (x <? width t - 1) && (isEmpty t belowRight || isWater t belowRight)
              then move currentI belowRight
         else ret false) ;;
      if negb moved then ret tt else updateSand_loop n (g + 1) i x y
  end.

Definition updateSand (i x y : Z) : Sim unit :=
  gravity <- gets (λ t, gravityStrength (parent t)) ;;
  updateSand_loop (Z.to_nat gravity) 0 i x y.

Fixpoint updateWater_loop (n : nat) (g i x y : Z) : Sim unit :=
  match n with
  | O => ret tt
  | S n =>
      t <- gets id ;;
      let currentY := y + g in
      let currentI := i + g * width t in
      let currentX := x in
      if currentY >=? height t - 1 then ret tt else
      let below := currentI + width t in
      let left := currentI - 1 in
      let right := currentI + 1 in
      let belowLeft := below - 1 in
      let belowRight := below + 1 in
      moved <-
        (if isEmpty t below then move currentI below
         else if (currentX >? 0) && isEmpty t belowLeft
              then move currentI belowLeft
         else if (currentX <? width t - 1) && isEmpty t belowRight
              then move currentI belowRight
         else
           r <- random ;;
           if Qltb r 0.5 then
             if (currentX >? 0) && isEmpty t left then move currentI left
             else if (currentX <? width t - 1) && isEmpty t right
                  then move currentI right
             else ret false
           else
             if (currentX <? width t - 1) && isEmpty t right then move currentI right
             else if (currentX >? 0) && isEmpty t left then move currentI left
             else ret false) ;;
      if negb moved then ret tt else updateWater_loop n (g + 1) i x y
  end.

Definition updateWater (i x y : Z) : Sim unit :=
  gravity <- gets (λ t, gravityStrength (parent t)) ;;
  updateWater_loop (Z.to_nat gravity) 0 i x y.

Definition rule (i x y : Z) : Sim unit :=
  material <- gets (λ t, aget (grid t) i) ;;
  match material with
  | Some SAND => updateSand i x y
  | Some WATER => updateWater i x y
  | _ => ret tt
  end.

Definition update : Sim unit :=
  w <- gets width ;;
  h <- gets height ;;
  for_each (reverse (below_n h)) (λ y,
    for_each (row_order w y) (λ x, rule (y * w + x) x y)).

Fixpoint ticks (n : nat) : Sim unit :=
  match n with
  | O => ret tt
  | S n => update ;; ticks n
  end.

End Engine.

(** The number of cells of the grid that hold the material [m]. *)
Definition cells_of (m : Material) (t : Grid) : nat :=
  count_occ Material_eq_dec (grid t) m.

(** [m] maintains the property [I] of the grid. *)
Definition keeps {A} (I : Grid → Prop) (m : Sim A) : Prop :=
  ∀ w, I (this w) → I (this (exec m w)).

(** The cells in [W] hold Wall and the gravity strength is at most 1. *)
Definition walls_stand (W : Z → Prop) (t : Grid) : Prop :=
  gravityStrength (parent t) ≤ 1 ∧ ∀ i, W i → aget (grid t) i = Some WALL.

(** A 3 x 3 grid at gravity strength 1 with sand at (1,0) above water at
    (1,1) and a wall cell at (0,1). *)
Definition pile : World :=
  mkWorld (mkGrid 3 3 [EMPTY; SAND; EMPTY; WALL; WATER; EMPTY; EMPTY; EMPTY; EMPTY]
                  (mkSandGame 1)) 0.

End Basic.

(** ** Specification vocabulary *)

(** The representation invariant the constructor establishes on a usable
    grid: positive dimensions and one entry per cell in both arrays. *)
Definition wf (g : Grid) : Prop :=
  0 < width g ∧ 0 < height g
  ∧ grid_length g = width g * height g
  ∧ Z.of_nat (length (metadata g)) = width g * height g.

(** An index of the grid. *)
Definition valid_index (g : Grid) (i : Z) : Prop := 0 ≤ i < grid_length g.

(** A 10 x 10 grid as the constructor leaves it, at gravity strength 1. *)
Definition blank_10x10 : Grid :=
  mkGrid 10 10 (replicate 100 EMPTY) (replicate 100 ambient) (mkSandGame 1).

(** The sand-settling scenario: one grain at (5,0), and where it ends. *)
Definition sand_at_top : World := mkWorld (set blank_10x10 5 0 SAND) 0.
Definition sand_at_bottom : World := mkWorld (set blank_10x10 5 9 SAND) 0.

(** A 3 x 3 grid at gravity strength 1, and small scenes on it. *)
Definition blank_3x3 : Grid :=
  mkGrid 3 3 (replicate 9 EMPTY) (replicate 9 ambient) (mkSandGame 1).

(** Sand in the top-left corner. *)
Definition sand_corner : World := mkWorld (set blank_3x3 0 0 SAND) 0.

(** Water at 100 degrees at (1,0), nothing below it. *)
Definition hot_water : World :=
  mkWorld (write_temp (set blank_3x3 1 0 WATER) 1 100) 0.

(** A 3 x 3 grid with oil, water at 150 degrees and sand on the bottom row,
    and a wall cell above the water. *)
Definition hot_puddle : World :=
  mkWorld (write_temp
             (set (set (set (set blank_3x3 0 2 OIL) 1 2 WATER) 2 2 SAND) 1 1 WALL)
             7 150) 0.

(** Water at room temperature at (1,0), resting on oil at 150 degrees. *)
Definition water_on_hot_oil : World :=
  mkWorld (write_temp (set (set blank_3x3 1 0 WATER) 1 1 OIL) 4 150) 0.

(** Acid at (0,2) on the bottom row, a wall cell next to it at (1,2). *)
Definition acid_by_wall : World :=
  mkWorld (set (set blank_3x3 0 2 ACID) 1 2 WALL) 0.

(** A random source that returns the same number at every call. *)
Definition always (q : Q) : nat → Q := λ _, q.

(** Sand at (1,0) on top of a wall cell at (1,1), at gravity strength 2. *)
Definition sand_on_wall : World :=
  mkWorld (mkGrid 3 3 (grid (set (set blank_3x3 1 0 SAND) 1 1 WALL))
                  (replicate 9 ambient) (mkSandGame 2)) 0.

(** Sand at (1,0) next to a wall cell at (1,1) with room to slide, at gravity
    strength 1. *)
Definition sand_by_wall : World :=
  mkWorld (set (set blank_3x3 1 0 SAND) 1 1 WALL) 0.

(** *** Reasoning about computations *)

(** [wp m Q w]: running [m] from [w] ends in a result and a state that
    satisfy [Q].  Computations are total functions, so this is a statement
    about the run itself. *)
Definition wp {A} (m : Sim A) (Q : A → World → Prop) (w : World) : Prop :=
  Q (m w).1 (m w).2.

Definition hoare {A} (P : World → Prop) (m : Sim A) (Q : A → World → Prop) : Prop :=
  ∀ w, P w → wp m Q w.

(** [m] maintains the property [I] of the grid. *)
Definition keeps {A} (I : Grid → Prop) (m : Sim A) : Prop :=
  ∀ w, I (this w) → I (this (exec m w)).

(** The cells in [W] hold Wall, no cell holds Acid, and the gravity
    strength is at most 1. *)
Definition walls_stand (W : Z → Prop) (t : Grid) : Prop :=
  gravityStrength (parent t) ≤ 1
  ∧ (∀ i, W i → aget (grid t) i = Some WALL)
  ∧ (∀ i, aget (grid t) i ≠ Some ACID).

(** Every Empty cell is at room temperature, on a well-formed grid of the
    given dimensions. *)
Definition calm (W H : Z) (t : Grid) : Prop :=
  width t = W ∧ height t = H ∧ wf t
  ∧ ∀ j, aget (grid t) j = Some EMPTY → (temp (meta_at t j) == 20)%Q.

(** One flame, at index [p] with [n] ticks of life left, among Empty and
    Wall cells. *)
Definition burning (W H p n : Z) (t : Grid) : Prop :=
  calm W H t
  ∧ aget (grid t) p = Some FIRE
  ∧ life (meta_at t p) = n
  ∧ ∀ j m, j ≠ p → aget (grid t) j = Some m → m = EMPTY ∨ m = WALL.

(** No flame left: Empty and Wall cells only. *)
Definition burnt (W H : Z) (t : Grid) : Prop :=
  calm W H t ∧ ∀ j m, aget (grid t) j = Some m → m = EMPTY ∨ m = WALL.

(** What one run of [updateFire] leaves of a lone flame at index [p] of row
    [y] with [n] ticks of life: nothing when [n <= 1], otherwise the flame
    with one tick less, where it was or somewhere in the row above. *)
Definition flame_after (W H p n y : Z) (t : Grid) : Prop :=
  if decide (n ≤ 1) then burnt W H t ∧ aget (grid t) p = Some EMPTY
  else ∃ p', burning W H p' (n - 1) t
             ∧ (p' = p ∨ ∃ x', 0 ≤ x' < W ∧ p' = (y - 1) * W + x').

(** A 3 x 3 grid with a wall cell at (1,0) and nothing else. *)
Definition walled_3x3 : Grid := set blank_3x3 1 0 WALL.

(** The materials the rules of the engine write into a cell; every other
    change of a cell is a swap. *)
Definition engine_writes (m : Material) : Prop :=
  m = EMPTY ∨ m = WATER ∨ m = FIRE ∨ m = PLANT ∨ m = ICE ∨ m = STEAM.

(** The number of cells of the grid that hold the material [m]. *)
Definition cells_of (m : Material) (t : Grid) : nat :=
  count_occ Material_eq_dec (grid t) m.

(** The cells that are not Empty in [G] hold in [t] what they hold in [G],
    metadata included. *)
Definition spares (G t : Grid) : Prop :=
  ∀ i m, aget (grid G) i = Some m → m ≠ EMPTY →
         aget (grid t) i = Some m ∧ aget (metadata t) i = aget (metadata G) i.


(** One grain of Sand, at index [p], in an otherwise Empty well-formed grid
    of the given dimensions and gravity strength. *)
Definition grain (W H G p : Z) (t : Grid) : Prop :=
  width t = W ∧ height t = H ∧ wf t ∧ gravityStrength (parent t) = G
  ∧ aget (grid t) p = Some SAND
  ∧ ∀ j m, j ≠ p → aget (grid t) j = Some m → m = EMPTY.

(** Sand, water and oil that lie on the bottom row, in a grid whose other
    cells are Empty or Wall. *)
Definition settled (t : Grid) : Prop :=
  ∀ i m, aget (grid t) i = Some m →
    m = EMPTY ∨ m = WALL
    ∨ ((m = SAND ∨ m = WATER ∨ m = OIL) ∧ (height t - 1) * width t ≤ i).


(** * Properties *)

(** ** Arrays *)

Section Arrays.
Context {A : Type}.
Implicit Types (l : list A) (i j k : Z).

Lemma aget_Some_range l i a : aget l i = Some a → 0 ≤ i < Z.of_nat (length l).
Proof.
  unfold aget. destruct (Z.ltb_spec i 0) as [|Hpos]; [done|].
  intros Hlt%lookup_lt_Some. lia.
Qed.

Lemma aget_in_range l i : 0 ≤ i < Z.of_nat (length l) → is_Some (aget l i).
Proof.
  intros Hi. unfold aget. destruct (Z.ltb_spec i 0) as [|Hpos]; [lia|].
  apply lookup_lt_is_Some. lia.
Qed.

Lemma aget_out_of_range l i : ¬ (0 ≤ i < Z.of_nat (length l)) → aget l i = None.
Proof.
  intros Hi. destruct (aget l i) eqn:E; [|done].
  apply aget_Some_range in E. lia.
Qed.

Lemma length_aset l i v : length (aset l i v) = length l.
Proof. unfold aset. destruct (i <? 0); [done|]. apply length_insert. Qed.

Lemma length_amod l i f : length (amod l i f) = length l.
Proof. unfold amod. destruct (i <? 0); [done|]. apply length_alter. Qed.

Lemma aget_aset l i j v :
  aget (aset l i v) j
  = if decide (i = j) then (match aget l i with Some _ => Some v | None => None end)
    else aget l j.
Proof.
  unfold aget, aset.
  destruct (Z.ltb_spec i 0), (Z.ltb_spec j 0), (decide (i = j)); try done; try lia.
  - subst j. destruct (l !! Z.to_nat i) eqn:E.
    + apply list_lookup_insert_eq. by eapply lookup_lt_Some.
    + rewrite list_insert_ge; [done|]. by apply lookup_ge_None.
  - apply list_lookup_insert_ne. lia.
Qed.

Lemma aget_aset_eq l i v :
  0 ≤ i < Z.of_nat (length l) → aget (aset l i v) i = Some v.
Proof.
  intros [a Ha]%aget_in_range. rewrite aget_aset, Ha.
  by destruct (decide (i = i)).
Qed.

Lemma aget_aset_ne l i j v : i ≠ j → aget (aset l i v) j = aget l j.
Proof. intros. rewrite aget_aset. by destruct (decide (i = j)). Qed.

Lemma aget_amod l i j f :
  aget (amod l i f) j = if decide (i = j) then f <$> aget l i else aget l j.
Proof.
  unfold aget, amod.
  destruct (Z.ltb_spec i 0), (Z.ltb_spec j 0), (decide (i = j)); try done; try lia.
  - subst j. apply list_lookup_alter_eq.
  - apply list_lookup_alter_ne. lia.
Qed.

Lemma aget_amod_ne l i j f : i ≠ j → aget (amod l i f) j = aget l j.
Proof. intros. rewrite aget_amod. by destruct (decide (i = j)). Qed.

Lemma aget_ext l l' : (∀ k, aget l k = aget l' k) → l = l'.
Proof.
  intros H. apply list_eq. intros n.
  specialize (H (Z.of_nat n)). unfold aget in H.
  destruct (Z.ltb_spec (Z.of_nat n) 0) as [|Hpos]; [lia|].
  by rewrite Nat2Z.id in H.
Qed.

Lemma length_aswap l i j : length (aswap l i j) = length l.
Proof.
  unfold aswap. destruct (aget l i), (aget l j); try done.
  by rewrite !length_aset.
Qed.

Lemma aget_aswap l i j k :
  0 ≤ i < Z.of_nat (length l) → 0 ≤ j < Z.of_nat (length l) →
  aget (aswap l i j) k
  = if decide (k = j) then aget l i
    else if decide (k = i) then aget l j else aget l k.
Proof.
  intros Hi Hj. unfold aswap.
  destruct (aget_in_range l i Hi) as [a Ha], (aget_in_range l j Hj) as [b Hb].
  rewrite Ha, Hb, !aget_aset, Ha.
  destruct (decide (j = k)), (decide (k = j)); try congruence.
  - subst k. destruct (decide (i = j)); [done|]. by rewrite Hb.
  - destruct (decide (i = k)), (decide (k = i)); congruence.
Qed.

Lemma aswap_involutive l i j :
  0 ≤ i < Z.of_nat (length l) → 0 ≤ j < Z.of_nat (length l) →
  aswap (aswap l i j) i j = l.
Proof.
  intros Hi Hj. apply aget_ext. intros k.
  rewrite aget_aswap by (by rewrite length_aswap).
  rewrite !aget_aswap by done.
  repeat case_decide; congruence.
Qed.

Lemma aget_elem_of l i a : aget l i = Some a → a ∈ l.
Proof.
  unfold aget. destruct (i <? 0); [done|]. apply list_elem_of_lookup_2.
Qed.

End Arrays.

(** ** Cell store *)

Lemma Qltb_lt (a b : Q) : Qltb a b = true ↔ (a < b)%Q.
Proof.
  unfold Qltb. rewrite negb_true_iff. split.
  - intros Hb. apply Qnot_le_lt. intros Hle%Qle_bool_iff. congruence.
  - intros Hlt. destruct (Qle_bool b a) eqn:E; [|done].
    apply Qle_bool_iff in E. exfalso. by eapply Qlt_not_le.
Qed.

Lemma inBounds_spec g x y :
  inBounds g x y = true ↔ (0 ≤ x < width g ∧ 0 ≤ y < height g).
Proof. unfold inBounds. rewrite !andb_true_iff, !Z.leb_le, !Z.ltb_lt. lia. Qed.

Lemma inBounds_false g x y :
  ¬ (0 ≤ x < width g ∧ 0 ≤ y < height g) → inBounds g x y = false.
Proof.
  intros H. destruct (inBounds g x y) eqn:E; [|done].
  by apply inBounds_spec in E.
Qed.

(** An index of the grid, split as [canDisplace] splits it, names a cell. *)
Lemma index_inBounds g i :
  wf g → valid_index g i → inBounds g (Z.rem i (width g)) (i / width g) = true.
Proof.
  intros (Hw & Hh & Hlen & _) [Hi0 Hi]. rewrite Hlen in Hi.
  apply inBounds_spec. split.
  - by apply Z.rem_bound_pos.
  - split; [by apply Z.div_pos|]. by apply Z.div_lt_upper_bound.
Qed.

Lemma cell_index g x y :
  wf g → inBounds g x y = true → valid_index g (y * width g + x).
Proof.
  intros (Hw & Hh & Hlen & _) Hb%inBounds_spec. unfold valid_index.
  rewrite Hlen. nia.
Qed.

Lemma valid_index_cell g i :
  valid_index g i → is_Some (aget (grid g) i).
Proof. apply aget_in_range. Qed.

Lemma cell_valid_index g i m : aget (grid g) i = Some m → valid_index g i.
Proof. apply aget_Some_range. Qed.

(** What a guard that holds says about the cell it tested. *)
Lemma cell_is_true (t : Grid) j m : cell_is t j m = true → aget (grid t) j = Some m.
Proof. unfold cell_is. by intros ?%bool_decide_eq_true. Qed.

Lemma isEmpty_cell (t : Grid) j : isEmpty t j = true → aget (grid t) j = Some EMPTY.
Proof.
  unfold isEmpty. destruct ((j <? 0) || (j >=? grid_length t)); [done|].
  apply cell_is_true.
Qed.

Lemma canDisplace_target (t : Grid) i j :
  canDisplace t i j = true → ∃ m, aget (grid t) j = Some m ∧ m ≠ WALL.
Proof.
  unfold canDisplace.
  destruct (negb _ || negb _); [done|].
  destruct (cell_is t j EMPTY) eqn:E1.
  { apply cell_is_true in E1. by exists EMPTY. }
  destruct (cell_is t j WALL) eqn:E2; [done|].
  destruct (aget (grid t) i) as [m1|]; [|done].
  destruct (aget (grid t) j) as [m|] eqn:E; [|done].
  intros _. exists m. split; [done|]. intros ->.
  unfold cell_is in E2. rewrite E in E2. by rewrite bool_decide_eq_false in E2.
Qed.

Lemma get_EMPTY_cell (t : Grid) x y :
  get t x y = Some (material_id EMPTY) → aget (grid t) (y * width t + x) = Some EMPTY.
Proof.
  unfold get. destruct (inBounds t x y); [|done].
  destruct (aget (grid t) (y * width t + x)) as [[]|]; done.
Qed.

(** C1.  For two cells of a well-formed grid, [canDisplace] answers true
    exactly when the target holds Empty, or the target is not Wall and the
    source material is strictly denser than the target material; this holds
    for every pair of material kinds. *)
Theorem canDisplace_density_rule (g : Grid) (i1 i2 : Z) (m1 m2 : Material) :
  wf g →
  aget (grid g) i1 = Some m1 →
  aget (grid g) i2 = Some m2 →
  canDisplace g i1 i2 = true
  ↔ m2 = EMPTY
    ∨ (m2 ≠ WALL ∧ (density (properties m2) < density (properties m1))%Q).
Proof.
  intros Hwf H1 H2. unfold canDisplace, cell_is.
  rewrite !index_inBounds by eauto using cell_valid_index.
  rewrite H1, H2. simpl negb. simpl orb. cbv iota.
  rewrite <- Qltb_lt.
  destruct m2; simpl; try (split; [intros ->; right; split; [done|reflexivity]
                                  | intros [[=]|[_ E]]; exact E]);
    try (split; [by left | done]);
    try (split; [done | intros [[=]|[? _]]; done]).
  all: destruct m1; vm_compute; split; try done;
    try (intros _; right; split; done);
    try (intros [[=]|[_ [=]]]).
Qed.

(** The rule on one concrete pair: Sand over Water. *)
Lemma canDisplace_density_rule_witness :
  canDisplace (set (set blank_10x10 0 0 SAND) 0 1 WATER) 0 10 = true
  ↔ WATER = EMPTY
    ∨ (WATER ≠ WALL ∧ (density (properties WATER) < density (properties SAND))%Q).
Proof.
  apply (canDisplace_density_rule (set (set blank_10x10 0 0 SAND) 0 1 WATER)
           0 10 SAND WATER).
  - repeat split; vm_compute; congruence.
  - reflexivity.
  - reflexivity.
Defined.

Lemma material_id_in_range (m : Material) : 0 ≤ material_id m ≤ 9.
Proof. destruct m; simpl; lia. Qed.

Lemma swap_out_of_range g i1 i2 :
  ¬ valid_index g i1 ∨ ¬ valid_index g i2 → swap g i1 i2 = g.
Proof.
  unfold valid_index, swap. intros H.
  destruct (Z.leb_spec 0 i1), (Z.ltb_spec i1 (grid_length g)),
    (Z.leb_spec 0 i2), (Z.ltb_spec i2 (grid_length g)); simpl; try done; lia.
Qed.

(** C5.  Outside the grid, [get] returns the out-of-bounds value, which is
    the id of no material, [set] leaves the grid and its metadata as they
    are, and so does [swap] when one of its indices is not an index of the
    grid.  All three are total: none has a failing case. *)
Theorem out_of_bounds_is_lenient (g : Grid) (x y : Z) (kind : Material) (i1 i2 : Z) :
  ¬ (0 ≤ x < width g ∧ 0 ≤ y < height g) →
  ¬ valid_index g i1 ∨ ¬ valid_index g i2 →
  get g x y = Some OUT_OF_BOUNDS
  ∧ (∀ m, material_id m ≠ OUT_OF_BOUNDS)
  ∧ set g x y kind = g
  ∧ swap g i1 i2 = g.
Proof.
  intros Hxy%inBounds_false Hi. unfold get, set. rewrite Hxy.
  repeat split; [|by apply swap_out_of_range].
  intros m. pose proof (material_id_in_range m). unfold OUT_OF_BOUNDS. lia.
Qed.

Lemma out_of_bounds_is_lenient_witness :
  get blank_10x10 (-10000) 3 = Some OUT_OF_BOUNDS
  ∧ (∀ m, material_id m ≠ OUT_OF_BOUNDS)
  ∧ set blank_10x10 (-10000) 3 WALL = blank_10x10
  ∧ swap blank_10x10 5 100 = blank_10x10.
Proof.
  apply (out_of_bounds_is_lenient blank_10x10 (-10000) 3 WALL 5 100).
  - lia.
  - right. unfold valid_index. vm_compute. intros [_ H]. discriminate H.
Defined.

Lemma swap_swap g i j :
  length (metadata g) = length (grid g) →
  valid_index g i → valid_index g j → swap (swap g i j) i j = g.
Proof.
  unfold valid_index, grid_length. intros Hlen Hi Hj.
  assert (Hg : ∀ g', Z.of_nat (length (grid g')) = Z.of_nat (length (grid g)) →
    (0 <=? i) && (i <? grid_length g') && (0 <=? j) && (j <? grid_length g') = true).
  { intros g' Hg'. unfold grid_length. rewrite Hg'.
    rewrite !andb_true_iff, !Z.leb_le, !Z.ltb_lt. lia. }
  unfold swap at 2. rewrite (Hg g eq_refl).
  unfold swap. rewrite Hg by (simpl; by rewrite length_aswap). simpl.
  rewrite !aswap_involutive by (rewrite ?Hlen; done). by destruct g.
Qed.

(** C6.  On a grid whose two arrays have the same length, [swap] at two
    indices of the grid exchanges the material and the metadata of the two
    cells together, changes no other cell, and undoes itself when applied a
    second time. *)
Theorem swap_is_involution (g : Grid) (i j : Z) :
  length (metadata g) = length (grid g) →
  valid_index g i →
  valid_index g j →
  swap (swap g i j) i j = g
  ∧ aget (grid (swap g i j)) i = aget (grid g) j
  ∧ aget (metadata (swap g i j)) i = aget (metadata g) j
  ∧ aget (grid (swap g i j)) j = aget (grid g) i
  ∧ aget (metadata (swap g i j)) j = aget (metadata g) i
  ∧ ∀ k, k ≠ i → k ≠ j →
      aget (grid (swap g i j)) k = aget (grid g) k
      ∧ aget (metadata (swap g i j)) k = aget (metadata g) k.
Proof.
  intros Hlen Hi Hj. split; [by apply swap_swap|].
  unfold valid_index, grid_length in *.
  assert (Hm : ∀ k, 0 ≤ k < Z.of_nat (length (grid g)) →
                    0 ≤ k < Z.of_nat (length (metadata g))) by (rewrite Hlen; done).
  unfold swap, grid_length.
  replace ((0 <=? i) && (i <? Z.of_nat (length (grid g))) && (0 <=? j)
           && (j <? Z.of_nat (length (grid g)))) with true
    by (symmetry; rewrite !andb_true_iff, !Z.leb_le, !Z.ltb_lt; lia).
  simpl. rewrite !aget_aswap by auto.
  repeat split; intros; rewrite ?aget_aswap by auto; repeat case_decide; congruence.
Qed.

Lemma swap_is_involution_witness :
  let g := set (set blank_10x10 5 0 FIRE) 5 1 SAND in
  swap (swap g 5 15) 5 15 = g
  ∧ aget (grid (swap g 5 15)) 5 = aget (grid g) 15
  ∧ aget (metadata (swap g 5 15)) 5 = aget (metadata g) 15
  ∧ aget (grid (swap g 5 15)) 15 = aget (grid g) 5
  ∧ aget (metadata (swap g 5 15)) 15 = aget (metadata g) 5
  ∧ ∀ k, k ≠ 5 → k ≠ 15 →
      aget (grid (swap g 5 15)) k = aget (grid g) k
      ∧ aget (metadata (swap g 5 15)) k = aget (metadata g) k.
Proof.
  intros g.
  apply (swap_is_involution g 5 15); unfold valid_index; vm_compute;
    first [reflexivity | split; congruence].
Defined.

Lemma new_Array_Some {A} (capacity : N) (n : Z) (v : A) l :
  new_Array capacity n v = Some l
  ↔ 0 ≤ n ≤ MAX_ARRAY_LENGTH ∧ n ≤ Z.of_N capacity
    ∧ l = replicate (Z.to_nat n) v.
Proof.
  unfold new_Array.
  destruct (Z.leb_spec 0 n), (Z.leb_spec n MAX_ARRAY_LENGTH),
    (Z.leb_spec n (Z.of_N capacity)); simpl;
    (split; [first [by intros [= <-] | done] | intros (? & ? & ->); first [done | lia]]).
Qed.

(** C9 (as the code has it).  The constructor does not look at its
    dimensions.  It can only succeed when [width * height] is a valid array
    length, whatever the sign of each dimension, and every grid it returns
    has that many cells, all Empty, with ambient metadata. *)
Theorem new_Grid_succeeds_only_on_a_valid_length (heap : Heap) (w h : Z)
    (p : SandGame) :
  (is_Some (new_Grid heap w h p) → 0 ≤ w * h ≤ MAX_ARRAY_LENGTH)
  ∧ ∀ g, new_Grid heap w h p = Some g →
      width g = w ∧ height g = h ∧ parent g = p
      ∧ grid_length g = w * h
      ∧ Z.of_nat (length (metadata g)) = w * h
      ∧ Forall (λ m, m = EMPTY) (grid g)
      ∧ Forall (λ m, m = ambient) (metadata g).
Proof.
  unfold new_Grid. split.
  - intros [g Hg].
    destruct (new_Array (max_numbers heap) (w * h) EMPTY) as [cells|] eqn:E1;
      simpl in Hg; [|done].
    by apply new_Array_Some in E1 as [Hr _].
  - intros g Hg.
    destruct (new_Array (max_numbers heap) (w * h) EMPTY) as [cells|] eqn:E1;
      simpl in Hg; [|done].
    destruct (new_Array (max_objects heap) (w * h) ambient) as [metas|] eqn:E2;
      simpl in Hg; [|done].
    apply new_Array_Some in E1 as (Hr & _ & ->).
    apply new_Array_Some in E2 as (_ & _ & ->).
    injection Hg as <-. unfold grid_length. simpl.
    rewrite !length_replicate, Z2Nat.id by lia.
    repeat split; apply Forall_forall; by intros m [-> _]%elem_of_replicate.
Qed.

Lemma new_Grid_succeeds_only_on_a_valid_length_witness :
  0 ≤ 10 * 10 ≤ MAX_ARRAY_LENGTH
  ∧ width blank_10x10 = 10 ∧ height blank_10x10 = 10
  ∧ parent blank_10x10 = mkSandGame 1
  ∧ grid_length blank_10x10 = 10 * 10
  ∧ Z.of_nat (length (metadata blank_10x10)) = 10 * 10
  ∧ Forall (λ m, m = EMPTY) (grid blank_10x10)
  ∧ Forall (λ m, m = ambient) (metadata blank_10x10).
Proof.
  pose (heap := mkHeap 1000 1000).
  assert (new_Grid heap 10 10 (mkSandGame 1) = Some blank_10x10) as E by reflexivity.
  split.
  - apply (proj1 (new_Grid_succeeds_only_on_a_valid_length heap 10 10 (mkSandGame 1))).
    by eexists.
  - exact (proj2 (new_Grid_succeeds_only_on_a_valid_length heap 10 10 (mkSandGame 1))
             blank_10x10 E).
Defined.

(** C9, as stated, fails: a zero width is not rejected, even by an engine
    with no room for a single element. *)
Lemma new_Grid_zero_width_not_rejected :
  new_Grid (mkHeap 0 0) 0 5 (mkSandGame 1) = Some (mkGrid 0 5 [] [] (mkSandGame 1)).
Proof. reflexivity. Qed.

(** C10.  For a coordinate of the grid and a material other than Fire, Acid
    and Steam, [set] writes the material id and nothing else: the whole
    metadata array, hence the temperature and lifespan of the cell, is left
    as it was. *)
Theorem set_keeps_metadata (g : Grid) (x y : Z) (kind : Material) :
  inBounds g x y = true →
  kind ≠ FIRE → kind ≠ ACID → kind ≠ STEAM →
  set g x y kind = with_grid g (aset (grid g) (y * width g + x) kind)
  ∧ metadata (set g x y kind) = metadata g
  ∧ getMeta (set g x y kind) x y = getMeta g x y.
Proof.
  intros Hb HF HA HS.
  assert (E : set g x y kind = with_grid g (aset (grid g) (y * width g + x) kind)).
  { unfold set. rewrite Hb. by destruct kind. }
  rewrite E. repeat split.
Qed.

(** Erasing a hot, half-burnt flame keeps its temperature and lifespan. *)
Lemma set_keeps_metadata_witness :
  let g := set blank_10x10 5 5 FIRE in
  set g 5 5 EMPTY = with_grid g (aset (grid g) (5 * width g + 5) EMPTY)
  ∧ metadata (set g 5 5 EMPTY) = metadata g
  ∧ getMeta (set g 5 5 EMPTY) 5 5 = getMeta g 5 5.
Proof.
  intros g. apply (set_keeps_metadata g 5 5 EMPTY); [reflexivity|done..].
Defined.

(** ** Concrete runs *)

(** C7.  On the 10 x 10 grid that is Empty except for one Sand cell at
    (5,0), at gravity strength 1, nine ticks leave exactly the grid whose only
    non-Empty cell is Sand at (5,9), whatever the random source returns (it
    is never consulted); the grain is one row lower after every tick. *)
Theorem sand_settles_in_nine_ticks (oracle : nat → Q) :
  exec (ticks oracle 9) sand_at_top = sand_at_bottom
  ∧ ∀ k, (k ≤ 9)%nat →
      exec (ticks oracle k) sand_at_top
      = mkWorld (set blank_10x10 5 (Z.of_nat k) SAND) 0.
Proof.
  split; [by vm_compute|].
  intros k Hk. do 10 (destruct k as [|k]; [by vm_compute|]). lia.
Qed.

(** C3 fails on the outline of [drawRect]: the top-left corner of the 3 x 3
    grid holds Sand, and drawing the outline of the whole grid in Wall
    replaces it, where the filled mode leaves it alone. *)
Theorem drawRect_outline_overwrites :
  get (this sand_corner) 0 0 = Some (material_id SAND)
  ∧ get (this (exec (drawRect 0 0 2 2 WALL false) sand_corner)) 0 0
    = Some (material_id WALL)
  ∧ get (this (exec (drawRect 0 0 2 2 WALL true) sand_corner)) 0 0
    = Some (material_id SAND).
Proof. by vm_compute. Qed.

(** C4 fails in a sub-step in which the water has moved.  Water at 100
    degrees falls from (1,0) to (1,1); the test that follows reads the
    metadata left at (1,0), so the random source is not consulted and the
    water stays Water whatever it would have returned.  And when water at
    room temperature sinks into oil at 150 degrees, it is the displaced oil,
    now at (1,0), that turns to Steam. *)
Theorem updateWater_tests_the_vacated_cell (oracle : nat → Q) :
  (let w := exec (updateWater oracle 1 1 0) hot_water in
   aget (grid (this w)) 4 = Some WATER
   ∧ temp (meta_at (this w) 4) = 100%Q
   ∧ aget (grid (this w)) 1 = Some EMPTY
   ∧ draws w = 0%nat)
  ∧ (aget (grid (this water_on_hot_oil)) 4 = Some OIL
     ∧ let w := exec (updateWater (always 0) 1 1 0) water_on_hot_oil in
       aget (grid (this w)) 4 = Some WATER
       ∧ aget (grid (this w)) 1 = Some STEAM).
Proof. by vm_compute. Qed.

(** C2, as stated, fails next to Acid: with a random source that always
    returns 0, one tick dissolves the wall cell at (1,2). *)
Lemma acid_dissolves_wall :
  gravityStrength (parent (this acid_by_wall)) = 1
  ∧ aget (grid (this acid_by_wall)) 7 = Some WALL
  ∧ aget (grid (this (exec (update (always 0)) acid_by_wall))) 7 = Some EMPTY.
Proof. by vm_compute. Qed.

(** ** Rules for computations *)

Section Rules.
Context {A B : Type}.
Implicit Types (w : World) (t : Grid).

Lemma wp_ret (a : A) (Q : A → World → Prop) w : Q a w → wp (ret a) Q w.
Proof. done. Qed.

Lemma wp_bind (m : Sim A) (k : A → Sim B) (Q : B → World → Prop) w :
  wp m (λ a w', wp (k a) Q w') w → wp (bind m k) Q w.
Proof. done. Qed.

Lemma wp_mono (m : Sim A) (Q Q' : A → World → Prop) w :
  wp m Q w → (∀ a w', Q a w' → Q' a w') → wp m Q' w.
Proof. unfold wp. auto. Qed.

Lemma wp_gets (f : Grid → A) (Q : A → World → Prop) w :
  Q (f (this w)) w → wp (gets f) Q w.
Proof. done. Qed.

Lemma wp_bind_gets (f : Grid → A) (k : A → Sim B) (Q : B → World → Prop) w :
  wp (k (f (this w))) Q w → wp (bind (gets f) k) Q w.
Proof. done. Qed.

Lemma wp_bind_ret (a : A) (k : A → Sim B) (Q : B → World → Prop) w :
  wp (k a) Q w → wp (bind (ret a) k) Q w.
Proof. done. Qed.

Lemma wp_bind_assoc {C} (m : Sim A) (k : A → Sim B) (k' : B → Sim C)
    (Q : C → World → Prop) w :
  wp (bind m (λ a, bind (k a) k')) Q w → wp (bind (bind m k) k') Q w.
Proof. done. Qed.

(** A computation with a specification, followed by a continuation. *)
Lemma wp_bind_hoare (P : World → Prop) (R : A → World → Prop) (m : Sim A)
    (k : A → Sim B) (Q : B → World → Prop) w :
  hoare P m R → P w → (∀ a w', R a w' → wp (k a) Q w') → wp (bind m k) Q w.
Proof. intros Hm HP Hk. apply wp_bind. eapply wp_mono; [by apply Hm|]. done. Qed.

(** Cutting at a statement that re-establishes a property of the grid. *)
Lemma wp_bind_cut (I : Grid → Prop) (m : Sim A) (k : A → Sim B)
    (Q : B → World → Prop) w :
  wp m (λ _ w', I (this w')) w →
  (∀ a w', I (this w') → wp (k a) Q w') →
  wp (bind m k) Q w.
Proof. intros Hm Hk. apply wp_bind. eapply wp_mono; [exact Hm|]. done. Qed.

End Rules.

Lemma wp_modify (f : Grid → Grid) (Q : unit → World → Prop) w :
  Q tt (mkWorld (f (this w)) (draws w)) → wp (modify f) Q w.
Proof. done. Qed.

Lemma wp_bind_modify {B} (f : Grid → Grid) (k : unit → Sim B)
    (Q : B → World → Prop) w :
  wp (k tt) Q (mkWorld (f (this w)) (draws w)) → wp (bind (modify f) k) Q w.
Proof. done. Qed.

Lemma wp_random oracle (Q : Q → World → Prop) w :
  Q (oracle (draws w)) (mkWorld (this w) (S (draws w))) → wp (random oracle) Q w.
Proof. done. Qed.

Lemma wp_bind_random {B} oracle (k : Q → Sim B) (Q : B → World → Prop) w :
  wp (k (oracle (draws w))) Q (mkWorld (this w) (S (draws w))) →
  wp (bind (random oracle) k) Q w.
Proof. done. Qed.

Lemma keeps_wp {A} (I : Grid → Prop) (m : Sim A) :
  keeps I m ↔ ∀ w, I (this w) → wp m (λ _ w', I (this w')) w.
Proof. done. Qed.

Lemma wp_bind_keeps {A B} (I : Grid → Prop) (m : Sim A) (k : A → Sim B)
    (Q : B → World → Prop) w :
  keeps I m → I (this w) → (∀ a w', I (this w') → wp (k a) Q w') →
  wp (bind m k) Q w.
Proof. intros Hm HI Hk. apply (wp_bind_cut I); [by apply Hm|done]. Qed.

Lemma keeps_for_each {A} (I : Grid → Prop) (l : list A) (body : A → Sim unit) :
  (∀ a, a ∈ l → keeps I (body a)) → keeps I (for_each l body).
Proof.
  induction l as [|a l IH]; intros Hbody w HI; [done|].
  apply (IH (λ b Hb, Hbody b (list_elem_of_further _ _ _ Hb))).
  apply (Hbody a); [apply list_elem_of_here|done].
Qed.

(** One step of symbolic execution of the statement at the head. *)
Ltac sim_step :=
  lazymatch goal with
  | |- wp (bind (bind _ _) _) _ _ => apply wp_bind_assoc
  | |- wp (bind (gets _) _) _ _ => apply wp_bind_gets
  | |- wp (bind (modify _) _) _ _ => apply wp_bind_modify
  | |- wp (bind (random _) _) _ _ => apply wp_bind_random
  | |- wp (bind (ret _) _) _ _ => apply wp_bind_ret
  | |- wp (bind (move _ _) _) _ _ => unfold move
  | |- wp (bind (when _ _) _) _ _ => unfold when
  | |- wp (bind (ignite _) _) _ _ => unfold ignite
  | |- wp (bind (to_steam _) _) _ _ => unfold to_steam
  | |- wp (bind (if ?b then _ else _) _) _ _ => destruct b eqn:?
  | |- wp (bind (match ?o with Some _ => _ | None => _ end) _) _ _ =>
      destruct o eqn:?
  | |- wp (gets _) _ _ => apply wp_gets
  | |- wp (modify _) _ _ => apply wp_modify
  | |- wp (random _) _ _ => apply wp_random
  | |- wp (ret _) _ _ => apply wp_ret
  | |- wp (move _ _) _ _ => unfold move
  | |- wp (when _ _) _ _ => unfold when
  | |- wp (ignite _) _ _ => unfold ignite
  | |- wp (to_steam _) _ _ => unfold to_steam
  | |- wp (if ?b then _ else _) _ _ => destruct b eqn:?
  | |- wp (match ?o with Some _ => _ | None => _ end) _ _ => destruct o eqn:?
  end.

Lemma wp_for_each {A} (I : Grid → Prop) (l : list A) (body : A → Sim unit) w :
  (∀ a, a ∈ l → keeps I (body a)) → I (this w) →
  wp (for_each l body) (λ _ w', I (this w')) w.
Proof. intros Hb HI. by apply (keeps_for_each I l body Hb). Qed.

Ltac sim_go := repeat (sim_step; cbn [this draws negb id]).

Ltac split_guards :=
  repeat match goal with
  | H : _ && _ = true |- _ => apply andb_true_iff in H as [? ?]
  end.

(** ** Walls under the tick

    With no Acid on the grid and a gravity strength of at most 1, every
    write of the engine lands on a cell that a guard has just shown not to
    hold Wall, or on the cell whose own rule is running. *)

Section Walls.
Variable oracle : nat → Q.
Variable W : Z → Prop.
Implicit Types (t : Grid) (w : World).

Lemma ws_not_wall t i m :
  walls_stand W t → aget (grid t) i = Some m → m ≠ WALL → ¬ W i.
Proof. intros (_ & HW & _) Hi Hm HWi. apply HW in HWi. congruence. Qed.

Lemma ws_canDisplace t i j : canDisplace t i j = true → walls_stand W t → ¬ W j.
Proof. intros (m & Hm & Hne)%canDisplace_target HI. by eapply ws_not_wall. Qed.

Lemma ws_isEmpty t j : isEmpty t j = true → walls_stand W t → ¬ W j.
Proof. intros Hj%isEmpty_cell HI. by eapply ws_not_wall. Qed.

Lemma ws_cell_is t j m : cell_is t j m = true → m ≠ WALL → walls_stand W t → ¬ W j.
Proof. intros Hj%cell_is_true ? HI. by eapply ws_not_wall. Qed.

Lemma ws_swap t i j : walls_stand W t → ¬ W i → ¬ W j → walls_stand W (swap t i j).
Proof.
  intros (Hg & HW & HA) Hi Hj. unfold swap.
  destruct (_ && _) eqn:E; [|done].
  rewrite !andb_true_iff, !Z.leb_le, !Z.ltb_lt in E. unfold grid_length in E.
  split; [done|]. simpl. split.
  - intros k Hk. rewrite aget_aswap by lia.
    repeat case_decide; subst; try done. by apply HW.
  - intros k. rewrite aget_aswap by lia. repeat case_decide; apply HA.
Qed.

Lemma ws_write_cell t i m :
  walls_stand W t → ¬ W i → m ≠ ACID → walls_stand W (write_cell t i m).
Proof.
  intros (Hg & HW & HA) Hi Hm. split; [done|]. simpl. split.
  - intros k Hk. rewrite aget_aset_ne by (by intros ->). by apply HW.
  - intros k. rewrite aget_aset. case_decide; [|apply HA].
    destruct (aget (grid t) i); congruence.
Qed.

Lemma ws_with_metadata t metas : walls_stand W t → walls_stand W (with_metadata t metas).
Proof. done. Qed.

Lemma ws_set t x y m :
  walls_stand W t → ¬ W (y * width t + x) → m ≠ ACID → walls_stand W (set t x y m).
Proof.
  intros HI Hi Hm. unfold set. destruct (inBounds t x y); [|done].
  pose proof (ws_write_cell t _ m HI Hi Hm) as HI'.
  destruct m; try done; unfold write_life, write_temp; simpl;
    repeat apply ws_with_metadata; done.
Qed.

Lemma ws_write_life t i v : walls_stand W t → walls_stand W (write_life t i v).
Proof. done. Qed.
Lemma ws_write_temp t i v : walls_stand W t → walls_stand W (write_temp t i v).
Proof. done. Qed.
Lemma ws_add_temp t i v : walls_stand W t → walls_stand W (add_temp t i v).
Proof. done. Qed.
Lemma ws_dec_life t i : walls_stand W t → walls_stand W (dec_life t i).
Proof. done. Qed.

Lemma ws_flammable t n m :
  aget (grid t) n = Some m → flammable (properties m) = true →
  walls_stand W t → ¬ W n.
Proof. intros Hn Hm HI. eapply ws_not_wall; [done..|]. by intros ->. Qed.

(** The invariant after a sequence of writes, and that a written cell is
    not one of the walls, from the guards in the context. *)
Ltac ws_inv :=
  lazymatch goal with
  | |- walls_stand _ (swap _ _ _) => apply ws_swap; [ws_inv | ws_notW | ws_notW]
  | |- walls_stand _ (write_cell _ _ _) =>
      apply ws_write_cell; [ws_inv | ws_notW | discriminate]
  | |- walls_stand _ (write_life _ _ _) => apply ws_write_life; ws_inv
  | |- walls_stand _ (write_temp _ _ _) => apply ws_write_temp; ws_inv
  | |- walls_stand _ (add_temp _ _ _) => apply ws_add_temp; ws_inv
  | |- walls_stand _ (dec_life _ _) => apply ws_dec_life; ws_inv
  | |- walls_stand _ _ => eassumption
  end
with ws_notW :=
  first [ eassumption
        | eapply ws_canDisplace; [eassumption | ws_inv]
        | eapply ws_isEmpty; [eassumption | ws_inv]
        | eapply ws_cell_is; [eassumption | discriminate | ws_inv]
        | eapply ws_flammable; [eassumption | eassumption | ws_inv] ].

Ltac ws_done := split_guards; cbn [this draws id] in *; ws_inv.

Lemma ws_gravity_fuel t :
  walls_stand W t →
  Z.to_nat (gravityStrength (parent t)) = 0%nat
  ∨ Z.to_nat (gravityStrength (parent t)) = 1%nat.
Proof. intros (Hg & _). lia. Qed.

Lemma ws_updateSand i x y :
  ¬ W i → keeps (walls_stand W) (updateSand i x y).
Proof.
  intros Hi. apply keeps_wp. intros w HI. unfold updateSand. sim_step.
  destruct (ws_gravity_fuel _ HI) as [-> | ->]; [done|].
  cbn [updateSand_loop]. sim_step. cbv zeta. unfold id.
  rewrite !Z.mul_0_l, !Z.add_0_r.
  sim_go; ws_done.
Qed.


Lemma ws_extinguish i x y :
  keeps (walls_stand W) (extinguishNearbySources oracle i x y).
Proof.
  apply keeps_wp. intros w HI. unfold extinguishNearbySources. sim_step.
  apply wp_for_each; [|done]. clear HI. intros n _. apply keeps_wp. intros w1 HI.
  sim_go; ws_done.
Qed.

Lemma ws_heatAndIgnite i x y :
  keeps (walls_stand W) (heatAndIgniteNearbySources oracle i x y).
Proof.
  apply keeps_wp. intros w HI. unfold heatAndIgniteNearbySources. sim_step.
  apply wp_for_each; [|done]. clear HI. intros n _. apply keeps_wp. intros w1 HI.
  sim_go; ws_done.
Qed.

Lemma ws_freeze i x y :
  keeps (walls_stand W) (freezeNearbySources oracle i x y).
Proof.
  apply keeps_wp. intros w HI. unfold freezeNearbySources. sim_step.
  apply wp_for_each; [|done]. clear HI. intros n _. apply keeps_wp. intros w1 HI.
  sim_go; ws_done.
Qed.

Lemma ws_growPlant x y : keeps (walls_stand W) (growPlant oracle x y).
Proof.
  apply keeps_wp. intros w HI. unfold growPlant. sim_go; try ws_done.
  match goal with H : aget _ _ = Some _ |- _ => apply aget_elem_of in H; rename H into Hp end.
  apply list_elem_of_omap in Hp as ([dx dy] & _ & Hd). simpl in Hd.
  destruct (inBounds _ _ _ && _) eqn:E; [|done]. injection Hd as <-. simpl.
  split_guards. apply ws_set; [done| |done].
  eapply (ws_not_wall _ _ EMPTY); [done| |done].
  apply get_EMPTY_cell. by eapply bool_decide_eq_true_1.
Qed.

(** Run the statement at the head, which re-establishes the invariant, and
    continue from an arbitrary state that satisfies it. *)
Ltac ws_stmt :=
  repeat (lazymatch goal with
          | |- wp (bind (gets _) _) _ _ => apply wp_bind_gets; cbn [this draws id]
          end);
  apply (wp_bind_cut (walls_stand W));
  [ sim_go; ws_done
  | let a := fresh "a" in let w := fresh "w" in let HI := fresh "HI" in
    intros a w HI ].

Lemma ws_updateWater i x y :
  ¬ W i → keeps (walls_stand W) (updateWater oracle i x y).
Proof.
  intros Hi. apply keeps_wp. intros w HI. unfold updateWater. sim_step.
  destruct (ws_gravity_fuel _ HI) as [-> | ->]; [done|].
  cbn [updateWater_loop]. sim_step. cbv zeta. unfold id.
  rewrite !Z.mul_0_l, !Z.add_0_r.
  sim_step; [done|].
  ws_stmt. ws_stmt. ws_stmt.
  apply (wp_bind_keeps (walls_stand W)); [apply ws_extinguish|done|].
  intros _ w3 HI3. by destruct a.
Qed.

Lemma ws_updateOil i x y :
  ¬ W i → keeps (walls_stand W) (updateOil oracle i x y).
Proof.
  intros Hi. apply keeps_wp. intros w HI. unfold updateOil. sim_step.
  assert (Z.to_nat (Z.max 1 (gravityStrength (parent (this w)) - 1)) = 1%nat) as ->
    by (destruct HI; lia).
  cbn [updateOil_loop]. sim_step. cbv zeta. unfold id.
  rewrite !Z.mul_0_l, !Z.add_0_r.
  sim_step; [done|].
  ws_stmt. ws_stmt. by destruct a.
Qed.

Lemma ws_updateIce i x y :
  ¬ W i → keeps (walls_stand W) (updateIce oracle i x y).
Proof.
  intros Hi. apply keeps_wp. intros w HI. unfold updateIce.
  ws_stmt. sim_step. sim_step. sim_step; [|done]. by apply ws_freeze.
Qed.

Lemma ws_updateFire i x y :
  ¬ W i → keeps (walls_stand W) (updateFire oracle i x y).
Proof.
  intros Hi. apply keeps_wp. intros w HI. unfold updateFire.
  sim_step. sim_step. cbn [this draws id]. sim_step; [sim_go; ws_done|].
  cbv zeta. ws_stmt.
  apply (wp_bind_keeps (walls_stand W)); [apply ws_heatAndIgnite|done|].
  intros _ w1 HI1.
  sim_step. ws_stmt. sim_go; ws_done.
Qed.

Lemma ws_updateSteam i x y :
  ¬ W i → keeps (walls_stand W) (updateSteam oracle i x y).
Proof.
  intros Hi. apply keeps_wp. intros w HI. unfold updateSteam.
  sim_step. sim_step. cbn [this draws id]. sim_step; [sim_go; ws_done|].
  cbv zeta. ws_stmt. sim_go; ws_done.
Qed.

Lemma ws_updatePlant i x y :
  ¬ W i → keeps (walls_stand W) (updatePlant oracle i x y).
Proof.
  intros Hi. apply keeps_wp. intros w HI. unfold updatePlant.
  sim_step.
  apply (wp_bind_cut (walls_stand W)).
  { sim_step; [|done]. sim_step. sim_step. sim_step; [|done]. by apply ws_growPlant. }
  intros _ w1 HI1. sim_go; ws_done.
Qed.

Lemma ws_updateTemperature i :
  keeps (walls_stand W) (updateTemperature i).
Proof.
  apply keeps_wp. intros w HI. unfold updateTemperature.
  sim_step. sim_step; [done|]. cbv zeta.
  apply (wp_bind_keeps (walls_stand W)); [|done|].
  - apply keeps_for_each. intros n _. apply keeps_wp. clear HI. intros w1 HI.
    sim_go; ws_done.
  - clear HI. intros _ w1 HI. sim_go; ws_done.
Qed.

Lemma ws_falling_rule i x y : keeps (walls_stand W) (falling_rule oracle i x y).
Proof.
  apply keeps_wp. intros w HI. unfold falling_rule. sim_step.
  destruct (aget (grid (this w)) i) as [m|] eqn:E; [|done].
  assert (m ≠ WALL → ¬ W i) as Hi by (by eapply ws_not_wall).
  destruct m; try done.
  - by apply ws_updateSand; auto.
  - by apply ws_updateWater; auto.
  - by apply ws_updateOil; auto.
  - by destruct HI as (_ & _ & HA); apply HA in E.
  - by apply ws_updateIce; auto.
Qed.

Lemma ws_rising_rule i x y : keeps (walls_stand W) (rising_rule oracle i x y).
Proof.
  apply keeps_wp. intros w HI. unfold rising_rule. sim_step.
  destruct (aget (grid (this w)) i) as [m|] eqn:E; [|done].
  assert (m ≠ WALL → ¬ W i) as Hi by (by eapply ws_not_wall).
  destruct m; try done.
  - by apply ws_updateFire; auto.
  - by apply ws_updatePlant; auto.
  - by apply ws_updateSteam; auto.
Qed.

Lemma ws_update : keeps (walls_stand W) (update oracle).
Proof.
  apply keeps_wp. intros w HI. unfold update. sim_step. sim_step.
  apply (wp_bind_keeps (walls_stand W)); [|done|].
  { apply keeps_for_each. intros y _. apply keeps_for_each. intros x _.
    apply ws_falling_rule. }
  intros _ w1 HI1.
  apply (wp_bind_keeps (walls_stand W)); [|done|].
  { apply keeps_for_each. intros y _. apply keeps_for_each. intros x _.
    apply ws_rising_rule. }
  clear w1 HI1. intros _ w1 HI1. sim_step.
  apply wp_for_each; [|done]. intros i _. apply ws_updateTemperature.
Qed.

Lemma ws_ticks n : keeps (walls_stand W) (ticks oracle n).
Proof.
  induction n as [|n IH]; [by intros w HI|]. apply keeps_wp. intros w HI.
  cbn [ticks]. apply (wp_bind_keeps (walls_stand W)); [apply ws_update|done|].
  intros _ w1 HI1. by apply IH.
Qed.
End Walls.


(** C2 (as the code has it).  On a grid that holds no Acid, at a gravity
    strength of at most 1, every cell that holds Wall still holds Wall at the
    same position after any number of ticks, whatever the other cells hold
    and whatever the random source returns. *)
Theorem walls_stand_without_acid (oracle : nat → Q) (w : World) (n : nat) :
  gravityStrength (parent (this w)) ≤ 1 →
  ACID ∉ grid (this w) →
  ∀ i, aget (grid (this w)) i = Some WALL →
       aget (grid (this (exec (ticks oracle n) w))) i = Some WALL.
Proof.
  intros Hg HA i Hi.
  pose proof (ws_ticks oracle (λ j, aget (grid (this w)) j = Some WALL) n w) as H.
  destruct H as (_ & H & _); [|by apply H].
  repeat split; [done..|]. intros j Hj%aget_elem_of. done.
Qed.

Lemma walls_stand_without_acid_witness :
  aget (grid (this sand_by_wall)) 4 = Some WALL
  ∧ aget (grid (this (exec (ticks (always 0) 5) sand_by_wall))) 4 = Some WALL.
Proof.
  split; [reflexivity|].
  apply (walls_stand_without_acid (always 0) sand_by_wall 5).
  - vm_compute. discriminate.
  - apply (bool_decide_unpack _). by vm_compute.
  - reflexivity.
Defined.

(** At gravity strength 2 a wall cell can be moved: the sand at (1,0) slides
    to (0,1), the second sub-step then runs at (1,1), which holds the wall,
    and drops it to (1,2). *)
Lemma wall_dropped_at_gravity_2 (oracle : nat → Q) :
  aget (grid (this sand_on_wall)) 4 = Some WALL
  ∧ aget (grid (this (exec (update oracle) sand_on_wall))) 4 = Some EMPTY
  ∧ aget (grid (this (exec (update oracle) sand_on_wall))) 7 = Some WALL.
Proof. by vm_compute. Qed.

(** ** A lone flame *)

Lemma wf_same_shape t t' :
  wf t → width t' = width t → height t' = height t →
  length (grid t') = length (grid t) →
  length (metadata t') = length (metadata t) → wf t'.
Proof.
  unfold wf, grid_length. intros (? & ? & ? & ?) -> -> -> ->. done.
Qed.

Lemma wf_swap t i j : wf t → wf (swap t i j).
Proof.
  intros Hwf. unfold swap. destruct (_ && _); [|done].
  apply (wf_same_shape t); simpl; by rewrite ?length_aswap.
Qed.

Lemma wf_write_cell t i m : wf t → wf (write_cell t i m).
Proof. intros Hwf. apply (wf_same_shape t); simpl; by rewrite ?length_aset. Qed.

Lemma wf_amod t i f : wf t → wf (with_metadata t (amod (metadata t) i f)).
Proof. intros Hwf. apply (wf_same_shape t); simpl; by rewrite ?length_amod. Qed.

Lemma wf_meta_Some t i m :
  wf t → aget (grid t) i = Some m → is_Some (aget (metadata t) i).
Proof.
  intros (_ & _ & Hg & Hm) Hi%aget_Some_range. apply aget_in_range.
  unfold grid_length in Hg. lia.
Qed.

Lemma meta_at_amod_ne t i f k :
  i ≠ k → meta_at (with_metadata t (amod (metadata t) i f)) k = meta_at t k.
Proof. intros Hne. unfold meta_at. simpl. by rewrite aget_amod_ne. Qed.

Lemma meta_at_amod_eq t i f :
  is_Some (aget (metadata t) i) →
  meta_at (with_metadata t (amod (metadata t) i f)) i = f (meta_at t i).
Proof.
  intros [m Hm]. unfold meta_at. simpl. rewrite aget_amod, Hm.
  by destruct (decide (i = i)).
Qed.

(** A metadata write that keeps the temperature of the cell. *)
Lemma temp_meta_at_amod t i f k :
  (∀ m, temp (f m) = temp m) →
  temp (meta_at (with_metadata t (amod (metadata t) i f)) k) = temp (meta_at t k).
Proof.
  intros Hf. unfold meta_at. simpl. rewrite aget_amod.
  destruct (decide (i = k)) as [->|]; [|done]. destruct (aget (metadata t) k); simpl; auto.
Qed.

Lemma life_meta_at_amod t i f k :
  (∀ m, life (f m) = life m) →
  life (meta_at (with_metadata t (amod (metadata t) i f)) k) = life (meta_at t k).
Proof.
  intros Hf. unfold meta_at. simpl. rewrite aget_amod.
  destruct (decide (i = k)) as [->|]; [|done]. destruct (aget (metadata t) k); simpl; auto.
Qed.

Lemma swap_valid t i j :
  valid_index t i → valid_index t j →
  swap t i j = mkGrid (width t) (height t) (aswap (grid t) i j)
                      (aswap (metadata t) i j) (parent t).
Proof.
  unfold valid_index, swap. intros Hi Hj.
  destruct (Z.leb_spec 0 i), (Z.ltb_spec i (grid_length t)),
    (Z.leb_spec 0 j), (Z.ltb_spec j (grid_length t)); simpl; try done; lia.
Qed.

Lemma grid_swap t i j k :
  valid_index t i → valid_index t j →
  aget (grid (swap t i j)) k
  = if decide (k = j) then aget (grid t) i
    else if decide (k = i) then aget (grid t) j else aget (grid t) k.
Proof.
  intros Hi Hj. rewrite swap_valid by done. simpl. by apply aget_aswap.
Qed.

Lemma meta_at_swap t i j k :
  wf t → valid_index t i → valid_index t j →
  meta_at (swap t i j) k
  = if decide (k = j) then meta_at t i
    else if decide (k = i) then meta_at t j else meta_at t k.
Proof.
  intros (_ & _ & Hg & Hm) Hi Hj. rewrite swap_valid by done.
  unfold meta_at. simpl. unfold valid_index in *.
  rewrite aget_aswap by lia. repeat case_decide; done.
Qed.

Lemma cell_is_false (t : Grid) j m : cell_is t j m = false → aget (grid t) j ≠ Some m.
Proof. unfold cell_is. by intros ?%bool_decide_eq_false. Qed.

Lemma cell_isEmpty (t : Grid) j : aget (grid t) j = Some EMPTY → isEmpty t j = true.
Proof.
  intros Hj. pose proof (aget_Some_range _ _ _ Hj) as Hr. unfold isEmpty, grid_length.
  destruct (Z.ltb_spec j 0), (Z.geb_spec j (Z.of_nat (length (grid t)))); simpl; try lia.
  unfold cell_is. by apply bool_decide_eq_true.
Qed.

(** The temperature pass only adds to the temperature of cells that are
    not Empty: it maintains whatever such additions maintain. *)
Lemma updateTemperature_keeps (I : Grid → Prop) i :
  (∀ t j d, I t → aget (grid t) j ≠ Some EMPTY → I (add_temp t j d)) →
  keeps I (updateTemperature i).
Proof.
  intros Hadd. apply keeps_wp. intros w HI. unfold updateTemperature.
  sim_step. sim_step; [done|]. cbv zeta. cbn [id].
  match goal with E : _ || _ = false |- _ =>
    apply orb_false_iff in E as [_ Hi%cell_is_false] end.
  apply (wp_bind_keeps (λ t, I t ∧ grid t = grid (this w))); [|done|].
  - apply keeps_for_each. intros j _. apply keeps_wp. intros w1 [HI1 HG1].
    sim_go; try done; split_guards.
    match goal with E : negb (cell_is _ j _) = true |- _ =>
      apply negb_true_iff, cell_is_false in E; rename E into Hj end.
    split; [|done]. apply Hadd; [apply Hadd|]; [done|by rewrite HG1|done].
  - intros _ w1 [HI1 HG1]. sim_go; [|done]. apply Hadd; [done|]. by rewrite HG1.
Qed.

Lemma for_each_app {A} (l1 l2 : list A) (body : A → Sim unit) w :
  for_each (l1 ++ l2) body w = for_each l2 body (exec (for_each l1 body) w).
Proof.
  revert w. induction l1 as [|a l1 IH]; intros w; [done|].
  simpl. unfold bind at 1. rewrite IH. done.
Qed.

Lemma for_each_idle {A} (l : list A) (body : A → Sim unit) w :
  (∀ a, a ∈ l → body a w = (tt, w)) → for_each l body w = (tt, w).
Proof.
  induction l as [|a l IH]; intros Hb; [done|].
  simpl. unfold bind. rewrite (Hb a) by apply list_elem_of_here. simpl.
  apply IH. intros b Hin. apply Hb. by apply list_elem_of_further.
Qed.

(** A rule that finds none of its materials leaves the world alone. *)
Lemma rising_rule_idle oracle i x y w :
  (∀ m, aget (grid (this w)) i = Some m → m ≠ FIRE ∧ m ≠ STEAM ∧ m ≠ PLANT) →
  rising_rule oracle i x y w = (tt, w).
Proof.
  intros Hi. unfold rising_rule, bind, gets. simpl.
  destruct (aget (grid (this w)) i) as [m|]; [|done].
  destruct (Hi m eq_refl) as (? & ? & ?). by destruct m.
Qed.

Lemma falling_rule_idle oracle i x y w :
  (∀ m, aget (grid (this w)) i = Some m →
        m ≠ SAND ∧ m ≠ WATER ∧ m ≠ OIL ∧ m ≠ ACID ∧ m ≠ ICE) →
  falling_rule oracle i x y w = (tt, w).
Proof.
  intros Hi. unfold falling_rule, bind, gets. simpl.
  destruct (aget (grid (this w)) i) as [m|]; [|done].
  destruct (Hi m eq_refl) as (? & ? & ? & ? & ?). by destruct m.
Qed.

(** Each row is swept over the columns [0 .. w-1], each of them once. *)
Lemma elem_of_row_order w y x : x ∈ row_order w y ↔ 0 ≤ x < w.
Proof.
  unfold row_order, below_n. rewrite list_elem_of_fmap. split.
  - intros (x0 & -> & Hx0%elem_of_seqZ). destruct (_ =? 0); lia.
  - intros Hx. destruct (Z.rem y 2 =? 0) eqn:E.
    + exists x. split; [done|]. apply elem_of_seqZ. lia.
    + exists (w - 1 - x). split; [lia|]. apply elem_of_seqZ. lia.
Qed.

Lemma NoDup_row_order w y : NoDup (row_order w y).
Proof.
  unfold row_order, below_n. apply NoDup_fmap_2; [|apply NoDup_seqZ].
  intros a b. destruct (_ =? 0); lia.
Qed.

(** Coordinates of a row-major index are unique. *)
Lemma index_inj W x1 y1 x2 y2 :
  0 ≤ x1 < W → 0 ≤ x2 < W → y1 * W + x1 = y2 * W + x2 → y1 = y2 ∧ x1 = x2.
Proof. intros H1 H2 E. assert (y1 = y2) by nia. subst. lia. Qed.

Lemma index_coordinates (t : Grid) i :
  wf t → valid_index t i →
  ∃ x y, i = y * width t + x ∧ 0 ≤ x < width t ∧ 0 ≤ y < height t.
Proof.
  intros (HW & HH & Hg & _) [Hi0 Hi]. rewrite Hg in Hi.
  exists (i mod width t), (i / width t).
  pose proof (Z.mod_pos_bound i (width t) HW).
  pose proof (Z.div_mod i (width t)). split; [lia|]. split; [done|].
  split; [by apply Z.div_pos|]. by apply Z.div_lt_upper_bound.
Qed.

Section Flame.
Variable oracle : nat → Q.
Variables W H : Z.
Implicit Types (t : Grid) (w : World) (p n : Z).

Lemma calm_wf t : calm W H t → wf t.
Proof. by intros (_ & _ & ? & _). Qed.

Lemma burning_calm p n t : burning W H p n t → calm W H t.
Proof. by intros (? & _). Qed.

Lemma burning_cell p n t j m :
  burning W H p n t → aget (grid t) j = Some m →
  (j = p ∧ m = FIRE) ∨ (j ≠ p ∧ (m = EMPTY ∨ m = WALL)).
Proof.
  intros (_ & Hp & _ & Ho) Hj. destruct (decide (j = p)) as [->|Hne].
  - left. split; [done|congruence].
  - right. split; [done|]. by eapply Ho.
Qed.

(** Writing the temperature of a cell that is not Empty. *)
Lemma calm_amod_temp t i f :
  calm W H t → aget (grid t) i ≠ Some EMPTY →
  calm W H (with_metadata t (amod (metadata t) i f)).
Proof.
  intros (HW & HH & Hwf & Ha) Hi. repeat split; try done; [by apply wf_amod..|].
  simpl. intros j Hj. rewrite meta_at_amod_ne by congruence. by apply Ha.
Qed.

Lemma calm_amod_life t i f :
  calm W H t → (∀ m, temp (f m) = temp m) →
  calm W H (with_metadata t (amod (metadata t) i f)).
Proof.
  intros (HW & HH & Hwf & Ha) Hf. repeat split; try done; [by apply wf_amod..|].
  simpl. intros j Hj. rewrite temp_meta_at_amod by done. by apply Ha.
Qed.

Lemma burning_dec_life p n t :
  burning W H p n t → burning W H p (n - 1) (dec_life t p).
Proof.
  intros (Hc & Hp & Hn & Ho). split; [by apply calm_amod_life|].
  split; [done|]. split; [|done].
  unfold dec_life. rewrite meta_at_amod_eq by (by eapply wf_meta_Some, Hp; apply calm_wf).
  simpl. by rewrite Hn.
Qed.

Lemma burning_add_temp p n t j d :
  burning W H p n t → aget (grid t) j ≠ Some EMPTY →
  burning W H p n (add_temp t j d).
Proof.
  intros (Hc & Hp & Hn & Ho) Hj. split; [by apply calm_amod_temp|].
  split; [done|]. split; [|done].
  unfold add_temp. by rewrite life_meta_at_amod.
Qed.

Lemma burning_write_temp p n t v :
  burning W H p n t → burning W H p n (write_temp t p v).
Proof.
  intros (Hc & Hp & Hn & Ho). split; [apply calm_amod_temp; [done|congruence]|].
  split; [done|]. split; [|done].
  unfold write_temp. by rewrite life_meta_at_amod.
Qed.

Lemma burnt_add_temp t j d :
  burnt W H t → aget (grid t) j ≠ Some EMPTY → burnt W H (add_temp t j d).
Proof. intros (Hc & Ho) Hj. split; [by apply calm_amod_temp|done]. Qed.

(** The flame rises into an Empty cell: the two cells trade places, metadata
    included. *)
Lemma burning_swap p q n t :
  burning W H p n t → aget (grid t) q = Some EMPTY →
  burning W H q n (swap t p q).
Proof.
  intros ((HW & HH & Hwf & Ha) & Hp & Hn & Ho) Hq.
  pose proof (cell_valid_index _ _ _ Hp) as Vp.
  pose proof (cell_valid_index _ _ _ Hq) as Vq.
  assert (p ≠ q) as Hpq by congruence.
  split; [repeat split|repeat split].
  - by rewrite swap_valid.
  - by rewrite swap_valid.
  - by apply wf_swap.
  - by apply wf_swap.
  - by apply wf_swap.
  - by apply wf_swap.
  - intros j. rewrite grid_swap, meta_at_swap by done.
    repeat case_decide; subst; try congruence; auto.
  - rewrite grid_swap by done. by case_decide.
  - rewrite meta_at_swap by done. by case_decide.
  - intros j m Hj. rewrite grid_swap by done.
    case_decide; [done|].
    case_decide; [subst; rewrite Hq; intros [= <-]; by left|]. by apply Ho.
Qed.

(** The flame goes out. *)
Lemma burning_die p n t :
  burning W H p n t →
  burnt W H (write_temp (write_cell t p EMPTY) p 20)
  ∧ aget (grid (write_temp (write_cell t p EMPTY) p 20)) p = Some EMPTY.
Proof.
  intros ((HW & HH & Hwf & Ha) & Hp & Hn & Ho).
  pose proof (cell_valid_index _ _ _ Hp) as Vp.
  assert (is_Some (aget (metadata t) p)) as Hm by (by eapply wf_meta_Some).
  split; [split; [repeat split|]|].
  - done.
  - done.
  - by apply wf_amod, wf_write_cell.
  - by apply wf_amod, wf_write_cell.
  - by apply wf_amod, wf_write_cell.
  - by apply wf_amod, wf_write_cell.
  - simpl. intros j. rewrite aget_aset. unfold write_temp. case_decide as Hj.
    + subst j. intros _. by rewrite meta_at_amod_eq.
    + intros Hj'. rewrite meta_at_amod_ne by done. by apply Ha.
  - simpl. intros j m. rewrite aget_aset. case_decide as Hj.
    + rewrite Hp. intros [= <-]. by left.
    + by apply Ho.
  - simpl. by apply aget_aset_eq.
Qed.


Lemma flame_heatAndIgnite G p n i x y :
  keeps (λ t, burning W H p n t ∧ grid t = G)
        (heatAndIgniteNearbySources oracle i x y).
Proof.
  apply keeps_wp. intros w HI. unfold heatAndIgniteNearbySources. sim_step.
  apply (wp_for_each (λ t, burning W H p n t ∧ grid t = G)); [|done].
  clear HI. intros j _. apply keeps_wp.
  intros w1 [HB HG]. sim_step. cbn [id]. sim_step. sim_step; [|done].
  split_guards.
  match goal with E : negb (cell_is _ j _) = true |- _ =>
    apply negb_true_iff, cell_is_false in E; rename E into Hj end.
  sim_step. cbn [this draws].
  destruct (aget (grid (this w1)) j) as [m|] eqn:Em;
    [|sim_go; split; [apply burning_add_temp; [done|by rewrite Em]|done]].
  assert (flammable (properties m) = false) as ->.
  { by destruct (burning_cell _ _ _ _ _ HB Em) as [[_ ->]|[_ [-> | ->]]]. }
  sim_go. split; [apply burning_add_temp; [done|by rewrite Em]|done].
Qed.

Lemma flame_updateFire p n x y w :
  burning W H p n (this w) → 0 ≤ x < W → 0 ≤ y < H → p = y * W + x →
  wp (updateFire oracle p x y) (λ _ w', flame_after W H p n y (this w')) w.
Proof.
  intros HB Hx Hy Hp. unfold updateFire. sim_step. sim_step. cbn [this draws id].
  pose proof (burning_dec_life _ _ _ HB) as HB1.
  assert (width (this w) = W) as HW by (by destruct HB as ((? & _) & _)).
  cbn [dec_life with_metadata width]. rewrite !HW.
  set (t1 := dec_life (this w) p) in *.
  assert (life (meta_at t1 p) = n - 1) as -> by (by destruct HB1 as (_ & _ & ? & _)).
  unfold flame_after.
  destruct (Z.leb_spec (n - 1) 0) as [Hn|Hn]; (case_decide; [try lia|try lia]).
  { sim_go. by apply burning_die with (n - 1). }
  cbv zeta.
  apply wp_bind.
  apply (wp_mono _ (λ meta w',
    burning W H meta (n - 1) (this w')
    ∧ (meta = p ∨ ∃ x', 0 ≤ x' < W ∧ meta = (y - 1) * W + x')
    ∧ ¬ (0 < y ∧ aget (grid (this w')) (p - W) = Some EMPTY))).
  - assert (∀ q, q ≠ p - W → q ≠ p →
              0 < y → aget (grid (swap t1 p q)) (p - W) = Some EMPTY →
              valid_index t1 q →
              (y >? 0) && isEmpty t1 (p - W) = false → False) as Hstale.
    { intros q Hq1 Hq2 Hy0 Ha Vq Hg.
      rewrite grid_swap in Ha; [|by eapply cell_valid_index, HB1|done].
      repeat case_decide; try lia. apply cell_isEmpty in Ha.
      rewrite Ha, andb_true_r in Hg. lia. }
    sim_go; split_guards;
      repeat match goal with E : isEmpty _ _ = true |- _ => apply isEmpty_cell in E end.
    + split; [by apply burning_swap|]. split; [right; exists x; lia|].
      intros [_ Ha]. apply burning_swap with (q := p - W) in HB1; [|done].
      destruct HB1 as (_ & ? & _). congruence.
    + split; [by apply burning_swap|]. split; [right; exists (x - 1); lia|].
      intros [Hy0 Ha]. eapply (Hstale (p - W - 1)); eauto using cell_valid_index; lia.
    + split; [by apply burning_swap|]. split; [right; exists (x + 1); lia|].
      intros [Hy0 Ha]. eapply (Hstale (p - W + 1)); eauto using cell_valid_index; lia.
    + split; [done|]. split; [by left|].
      intros [Hy0 Ha%cell_isEmpty].
      match goal with E : (y >? 0) && isEmpty t1 (p - W) = false |- _ =>
        rewrite Ha, andb_true_r in E; lia end.
  - intros meta w1 (HB2 & Hloc & Habove).
    apply (wp_bind_keeps (λ t, burning W H meta (n - 1) t ∧ grid t = grid (this w1)));
      [apply flame_heatAndIgnite|done|].
    intros _ w2 [HB3 HG]. sim_step. sim_step. cbn [this draws id].
    sim_step. sim_step.
    { split_guards. exfalso. apply Habove. split; [lia|].
      rewrite <- HG. by apply isEmpty_cell. }
    sim_go. exists meta. split; [by apply burning_write_temp|done].
Qed.


Lemma burning_quiet_falling p n t i m :
  burning W H p n t → aget (grid t) i = Some m →
  m ≠ SAND ∧ m ≠ WATER ∧ m ≠ OIL ∧ m ≠ ACID ∧ m ≠ ICE.
Proof.
  intros HB Hi.
  by destruct (burning_cell _ _ _ _ _ HB Hi) as [[_ ->]|[_ [-> | ->]]].
Qed.

Lemma burning_quiet_rising p n t i m :
  burning W H p n t → i ≠ p → aget (grid t) i = Some m →
  m ≠ FIRE ∧ m ≠ STEAM ∧ m ≠ PLANT.
Proof.
  intros HB Hne Hi.
  by destruct (burning_cell _ _ _ _ _ HB Hi) as [[? _]|[_ [-> | ->]]].
Qed.

Lemma burnt_quiet_rising t i m :
  burnt W H t → aget (grid t) i = Some m → m ≠ FIRE ∧ m ≠ STEAM ∧ m ≠ PLANT.
Proof. intros (_ & Ho) Hi. by destruct (Ho _ _ Hi) as [-> | ->]. Qed.

(** The first pass finds nothing to move. *)
Lemma flame_falling_pass p n w ys :
  burning W H p n (this w) →
  for_each ys (sweep_row (falling_rule oracle) W) w = (tt, w).
Proof.
  intros HB. apply for_each_idle. intros y _. apply for_each_idle. intros x _.
  apply falling_rule_idle. intros m. by apply burning_quiet_falling with p n.
Qed.

(** Rows that do not hold the flame are passed over. *)
Lemma flame_rising_rows_idle w ys :
  (∀ y x m, y ∈ ys → 0 ≤ x < W → aget (grid (this w)) (y * W + x) = Some m →
            m ≠ FIRE ∧ m ≠ STEAM ∧ m ≠ PLANT) →
  for_each ys (sweep_row (rising_rule oracle) W) w = (tt, w).
Proof.
  intros Hq. apply for_each_idle. intros y Hy. apply for_each_idle. intros x Hx.
  apply rising_rule_idle. intros m. apply Hq; [done|]. by apply elem_of_row_order in Hx.
Qed.

(** What a tick leaves of the flame. *)
Lemma flame_after_quiet p n y t y' x' m :
  flame_after W H p n y t → 0 ≤ x' < W → (∃ x, 0 ≤ x < W ∧ p = y * W + x) →
  y' * W + x' ≠ p → y' ≠ y - 1 →
  aget (grid t) (y' * W + x') = Some m → m ≠ FIRE ∧ m ≠ STEAM ∧ m ≠ PLANT.
Proof.
  unfold flame_after. intros HA Hx' (x & Hx & Hp) Hne Hrow Hm. case_decide.
  - destruct HA as [HA _]. by eapply burnt_quiet_rising.
  - destruct HA as (p' & HB & Hloc). eapply burning_quiet_rising; [done| |done].
    destruct Hloc as [-> | (x1 & Hx1 & ->)]; [done|].
    intros E. apply index_inj in E; [lia|done..].
Qed.

Lemma flame_rising_row p n x y w :
  burning W H p n (this w) → 0 ≤ x < W → 0 ≤ y < H → p = y * W + x →
  wp (sweep_row (rising_rule oracle) W y)
     (λ _ w', flame_after W H p n y (this w')) w.
Proof.
  intros HB Hx Hy Hp. unfold sweep_row.
  assert (x ∈ row_order W y) as Hin by (by apply elem_of_row_order).
  apply list_elem_of_split in Hin as (l1 & l2 & Hl).
  pose proof (NoDup_row_order W y) as Hnd. rewrite Hl in Hnd.
  apply NoDup_app in Hnd as (_ & Hl1 & [Hl2 _]%NoDup_cons).
  assert (∀ x', x' ∈ l1 ∨ x' ∈ l2 → 0 ≤ x' < W ∧ x' ≠ x) as Hcols.
  { intros x' Hx'. split.
    - apply (elem_of_row_order W y). rewrite Hl, elem_of_app, elem_of_cons. tauto.
    - intros ->. destruct Hx' as [Hx'|Hx']; [by apply Hl1 in Hx'; apply Hx'; left|done]. }
  rewrite Hl. unfold wp. rewrite for_each_app. unfold exec.
  rewrite (for_each_idle l1).
  2:{ intros x' Hx'. destruct (Hcols x' (or_introl Hx')) as [Hr Hne].
      apply rising_rule_idle. intros m. apply burning_quiet_rising with p n; [done|].
      intros E. rewrite Hp in E. apply index_inj in E; [lia|done..]. }
  cbn [snd for_each]. unfold bind at 1.
  assert (rising_rule oracle (y * W + x) x y w = updateFire oracle p x y w) as ->.
  { unfold rising_rule, bind, gets. cbn [fst snd]. rewrite <- Hp.
    by destruct HB as (_ & -> & _). }
  pose proof (flame_updateFire p n x y w HB Hx Hy Hp) as HF. unfold wp in HF.
  rewrite for_each_idle; [done|].
  intros x' Hx'. destruct (Hcols x' (or_intror Hx')) as [Hr Hne].
  apply rising_rule_idle. intros m.
  apply (flame_after_quiet p n y _ y x'); [done|done|by exists x| |lia].
  rewrite Hp. intros E. apply index_inj in E; [lia|done..].
Qed.

Lemma flame_rising_pass p n w :
  burning W H p n (this w) →
  ∃ y, wp (for_each (below_n H) (sweep_row (rising_rule oracle) W))
          (λ _ w', flame_after W H p n y (this w')) w.
Proof.
  intros HB.
  assert (wf (this w) ∧ width (this w) = W ∧ height (this w) = H)
    as (Hwf & HW & HH) by (by destruct HB as ((? & ? & ? & _) & _)).
  assert (valid_index (this w) p) as Vp
    by (destruct HB as (_ & Hp & _); by eapply cell_valid_index).
  destruct (index_coordinates _ _ Hwf Vp) as (x & y & Hp & Hx & Hy).
  rewrite HW in Hp, Hx. rewrite HH in Hy. exists y.
  unfold below_n. replace H with (y + (H - y)) at 1 by lia.
  rewrite seqZ_app, (seqZ_cons (0 + y)) by lia. rewrite Z.add_0_l.
  unfold wp. rewrite for_each_app. unfold exec.
  rewrite (flame_rising_rows_idle w (seqZ 0 y)).
  2:{ intros y' x' m Hy'%elem_of_seqZ Hx'. apply burning_quiet_rising with p n; [done|].
      rewrite Hp. intros E. apply index_inj in E; [lia|done..]. }
  cbn [snd for_each]. unfold bind at 1.
  pose proof (flame_rising_row p n x y w HB Hx Hy Hp) as HR. unfold wp in HR.
  rewrite flame_rising_rows_idle; [done|].
  intros y' x' m Hy'%elem_of_seqZ Hx'.
  apply (flame_after_quiet p n y _ y' x'); [done|done|by exists x| |lia].
  rewrite Hp. intros E. apply index_inj in E; [lia|done..].
Qed.


Lemma burnt_cell_add_temp p t j d :
  burnt W H t ∧ aget (grid t) p = Some EMPTY →
  aget (grid t) j ≠ Some EMPTY →
  burnt W H (add_temp t j d) ∧ aget (grid (add_temp t j d)) p = Some EMPTY.
Proof. intros [HB Hp] Hj. split; [by apply burnt_add_temp|done]. Qed.

(** One tick on a lone flame. *)
Lemma flame_update p n w :
  burning W H p n (this w) →
  wp (update oracle)
     (λ _ w', if decide (n ≤ 1)
              then burnt W H (this w') ∧ aget (grid (this w')) p = Some EMPTY
              else ∃ p', burning W H p' (n - 1) (this w')) w.
Proof.
  intros HB.
  assert (width (this w) = W ∧ height (this w) = H)
    as (HW & HH) by (by destruct HB as ((? & ? & _) & _)).
  unfold update. sim_step. sim_step. rewrite HW, HH.
  apply wp_bind. unfold wp at 1. rewrite (flame_falling_pass p n) by done. cbn [fst snd].
  destruct (flame_rising_pass p n w HB) as [y HR].
  apply wp_bind. eapply wp_mono; [exact HR|]. cbn beta.
  intros _ w1 HA. sim_step. unfold flame_after in HA. case_decide.
  - apply (wp_for_each (λ t, burnt W H t ∧ aget (grid t) p = Some EMPTY)); [|done].
    intros i _. apply updateTemperature_keeps. intros t j d. apply burnt_cell_add_temp.
  - destruct HA as (p' & HB' & _).
    eapply wp_mono.
    + apply (wp_for_each (burning W H p' (n - 1))); [|done].
      intros i _. apply updateTemperature_keeps. intros t j d. apply burning_add_temp.
    + intros ? w2 HB2. by exists p'.
Qed.

Lemma ticks_S k w :
  exec (ticks oracle (S k)) w = exec (ticks oracle k) (exec (update oracle) w).
Proof. done. Qed.

(** While it has life left the flame stays the only one, a tick older each
    time. *)
Lemma flame_ticks k p n w :
  burning W H p n (this w) → Z.of_nat k < n →
  ∃ p', burning W H p' (n - Z.of_nat k) (this (exec (ticks oracle k) w)).
Proof.
  revert p n w. induction k as [|k IH]; intros p n w HB Hk.
  - exists p. by rewrite Z.sub_0_r.
  - rewrite ticks_S. pose proof (flame_update p n w HB) as HU. unfold wp in HU.
    case_decide; [lia|]. destruct HU as (p1 & HB1).
    destruct (IH p1 (n - 1) _ HB1) as (p2 & HB2); [lia|].
    exists p2. replace (n - Z.of_nat (S k)) with (n - 1 - Z.of_nat k) by lia. done.
Qed.

(** Lighting a cell of a grid of Empty and Wall cells. *)
Lemma burning_set t x y :
  burnt W H t → inBounds t x y = true →
  burning W H (y * W + x) (lifespan (properties FIRE)) (set t x y FIRE).
Proof.
  intros ((HW & HH & Hwf & Ha) & Ho) Hb.
  pose proof (cell_index _ _ _ Hwf Hb) as Vi. rewrite HW in Vi.
  destruct (valid_index_cell _ _ Vi) as [m0 Hm0].
  assert (is_Some (aget (metadata t) (y * W + x))) as Hm by (by eapply wf_meta_Some).
  unfold set. rewrite Hb, HW. cbn [properties lifespan].
  set (i := y * W + x) in *.
  split; [repeat split|repeat split].
  - done.
  - done.
  - by apply wf_amod, wf_amod, wf_write_cell.
  - by apply wf_amod, wf_amod, wf_write_cell.
  - by apply wf_amod, wf_amod, wf_write_cell.
  - by apply wf_amod, wf_amod, wf_write_cell.
  - cbn [grid write_life write_temp write_cell with_metadata with_grid].
    intros j. rewrite aget_aset. case_decide; [by destruct (aget (grid t) i)|].
    intros Hj. unfold write_life. rewrite meta_at_amod_ne by done.
    unfold write_temp. rewrite meta_at_amod_ne by done. by apply Ha.
  - cbn [grid write_life write_temp write_cell with_metadata with_grid].
    by apply aget_aset_eq.
  - unfold write_life. rewrite meta_at_amod_eq; [done|].
    cbn [metadata write_temp with_metadata]. rewrite aget_amod.
    case_decide; [|done]. by apply fmap_is_Some.
  - cbn [grid write_life write_temp write_cell with_metadata with_grid].
    intros j m Hj. rewrite aget_aset_ne by done. apply Ho.
Qed.

End Flame.

(** A flame lit by [set] on a grid of Empty and Wall cells whose Empty cells
    are at room temperature lives for exactly its lifespan of 100 ticks,
    whatever the random source returns: after [k < 100] ticks there is one
    flame, with lifespan [100 - k], and nothing but Empty and Wall around it;
    the 100th tick turns the cell it is in to Empty at 20 degrees and leaves
    no flame on the grid. *)
Theorem flame_lives_exactly_its_lifespan (oracle : nat → Q) (t0 : Grid)
    (x y : Z) (d : nat) :
  wf t0 →
  (∀ j m, aget (grid t0) j = Some m → m = EMPTY ∨ m = WALL) →
  (∀ j, aget (grid t0) j = Some EMPTY → (temp (meta_at t0 j) == 20)%Q) →
  inBounds t0 x y = true →
  let after k := this (exec (ticks oracle k) (mkWorld (set t0 x y FIRE) d)) in
  (∀ k, (k < 100)%nat →
     ∃ p, aget (grid (after k)) p = Some FIRE
          ∧ life (meta_at (after k) p) = 100 - Z.of_nat k
          ∧ ∀ j m, j ≠ p → aget (grid (after k)) j = Some m → m = EMPTY ∨ m = WALL)
  ∧ (∃ p, aget (grid (after 99%nat)) p = Some FIRE
          ∧ aget (grid (after 100%nat)) p = Some EMPTY
          ∧ (temp (meta_at (after 100%nat) p) == 20)%Q)
  ∧ (∀ j m, aget (grid (after 100%nat)) j = Some m → m = EMPTY ∨ m = WALL).
Proof.
  intros Hwf Ho Ha Hb after.
  assert (burning (width t0) (height t0) (y * width t0 + x) 100 (set t0 x y FIRE))
    as HB by (by apply burning_set).
  assert (∀ k, (k < 100)%nat →
            ∃ p, burning (width t0) (height t0) p (100 - Z.of_nat k) (after k)) as Hk.
  { intros k Hk.
    eapply (flame_ticks oracle _ _ k _ 100 (mkWorld (set t0 x y FIRE) d)); [exact HB|lia]. }
  split; [|].
  - intros k Hlt. destruct (Hk k Hlt) as (p & _ & Hp & Hl & Hrest). by exists p.
  - destruct (Hk 99%nat) as (p & HB99); [lia|]. simpl in HB99.
    pose proof (flame_update oracle _ _ p 1 _ HB99) as HU. unfold wp in HU.
    case_decide; [|lia]. destruct HU as [((_ & _ & _ & Hamb) & Hall) Hp].
    assert (after 100%nat
            = this (exec (update oracle) (exec (ticks oracle 99) (mkWorld (set t0 x y FIRE) d))))
      as E.
    { unfold after. clear.
      generalize (mkWorld (set t0 x y FIRE) d). generalize 99%nat.
      induction n as [|n IH]; intros w; [done|].
      rewrite (ticks_S oracle (S n)), IH, (ticks_S oracle n). done. }
    rewrite E. split; [|done].
    exists p. split; [by destruct HB99 as (_ & ? & _)|]. split; [done|by apply Hamb].
Qed.

Lemma cells_Forall (P : Material → Prop) (t : Grid) :
  Forall P (grid t) → ∀ j m, aget (grid t) j = Some m → P m.
Proof.
  intros HF j m Hj%aget_elem_of. by eapply Forall_forall in HF.
Qed.

Lemma meta_Forall (P : Meta → Prop) (t : Grid) :
  P ambient → Forall P (metadata t) → ∀ j, P (meta_at t j).
Proof.
  intros Ha HF j. unfold meta_at.
  destruct (aget (metadata t) j) as [m|] eqn:E; [|done].
  apply aget_elem_of in E. by eapply Forall_forall in HF.
Qed.

Lemma flame_lives_exactly_its_lifespan_witness :
  let after k :=
    this (exec (ticks (always 0) k) (mkWorld (set walled_3x3 1 1 FIRE) 0)) in
  (∀ k, (k < 100)%nat →
     ∃ p, aget (grid (after k)) p = Some FIRE
          ∧ life (meta_at (after k) p) = 100 - Z.of_nat k
          ∧ ∀ j m, j ≠ p → aget (grid (after k)) j = Some m → m = EMPTY ∨ m = WALL)
  ∧ (∃ p, aget (grid (after 99%nat)) p = Some FIRE
          ∧ aget (grid (after 100%nat)) p = Some EMPTY
          ∧ (temp (meta_at (after 100%nat) p) == 20)%Q)
  ∧ (∀ j m, aget (grid (after 100%nat)) j = Some m → m = EMPTY ∨ m = WALL).
Proof.
  apply (flame_lives_exactly_its_lifespan (always 0) walled_3x3 1 1 0).
  - repeat split; vm_compute; congruence.
  - apply (cells_Forall (λ m, m = EMPTY ∨ m = WALL)). vm_compute.
    repeat (apply Forall_cons_2; [simpl; auto|]). apply Forall_nil_2.
  - intros j _. apply (meta_Forall (λ m, (temp m == 20)%Q)); [reflexivity|].
    vm_compute. repeat (apply Forall_cons_2; [reflexivity|]). apply Forall_nil_2.
  - reflexivity.
Defined.
(** ** What every rule maintains

    A property of the grid that survives a swap, a write of one of the
    materials the rules write, and any change of one metadata record,
    survives every rule, at every gravity strength. *)

Section Closure.
Variable oracle : nat → Q.
Variable I : Grid → Prop.
Hypothesis I_swap : ∀ t i j, I t → I (swap t i j).
Hypothesis I_cell : ∀ t i m, I t → engine_writes m → I (write_cell t i m).
Hypothesis I_meta : ∀ t i f, I t → I (with_metadata t (amod (metadata t) i f)).
Implicit Types (t : Grid) (w : World).

Lemma ek_write_life t i v : I t → I (write_life t i v).
Proof. apply I_meta. Qed.
Lemma ek_write_temp t i v : I t → I (write_temp t i v).
Proof. apply I_meta. Qed.
Lemma ek_add_temp t i d : I t → I (add_temp t i d).
Proof. apply I_meta. Qed.
Lemma ek_dec_life t i : I t → I (dec_life t i).
Proof. apply I_meta. Qed.

Lemma ek_set_PLANT t x y : I t → I (set t x y PLANT).
Proof.
  intros HI. unfold set. destruct (inBounds t x y); [|done].
  apply I_cell; [done|]. unfold engine_writes. tauto.
Qed.

Ltac ek_inv :=
  lazymatch goal with
  | |- I (swap _ _ _) => apply I_swap; ek_inv
  | |- I (write_cell _ _ _) =>
      apply I_cell; [ek_inv | unfold engine_writes; tauto]
  | |- I (write_life _ _ _) => apply ek_write_life; ek_inv
  | |- I (write_temp _ _ _) => apply ek_write_temp; ek_inv
  | |- I (add_temp _ _ _) => apply ek_add_temp; ek_inv
  | |- I (dec_life _ _) => apply ek_dec_life; ek_inv
  | |- I (set _ _ _ PLANT) => apply ek_set_PLANT; ek_inv
  | |- I _ => eassumption
  end.

Ltac ek_stmt :=
  repeat (lazymatch goal with
          | |- wp (bind (gets _) _) _ _ => apply wp_bind_gets; cbn [this draws id]
          end);
  apply (wp_bind_cut I);
  [ sim_go; ek_inv
  | let a := fresh "a" in let w := fresh "w" in let HI := fresh "HI" in
    intros a w HI ].

Ltac ek_loop body :=
  apply keeps_wp; intros ? ?; unfold body; sim_step;
  apply (wp_for_each I); [|done];
  intros ? _; apply keeps_wp; intros ? ?; sim_go; ek_inv.

Lemma ek_heatAndIgnite i x y : keeps I (heatAndIgniteNearbySources oracle i x y).
Proof. ek_loop heatAndIgniteNearbySources. Qed.

Lemma ek_extinguish i x y : keeps I (extinguishNearbySources oracle i x y).
Proof. ek_loop extinguishNearbySources. Qed.

Lemma ek_dissolve i x y : keeps I (dissolveNearbySources oracle i x y).
Proof. ek_loop dissolveNearbySources. Qed.

Lemma ek_freeze i x y : keeps I (freezeNearbySources oracle i x y).
Proof. ek_loop freezeNearbySources. Qed.

Lemma ek_growPlant x y : keeps I (growPlant oracle x y).
Proof. apply keeps_wp. intros w HI. unfold growPlant. sim_go; ek_inv. Qed.

Lemma ek_updateSand_loop n g i x y : keeps I (updateSand_loop n g i x y).
Proof.
  revert g. induction n as [|n IH]; intros g; apply keeps_wp; intros w HI; [done|].
  cbn [updateSand_loop]. sim_step. cbv zeta. sim_step; [done|].
  ek_stmt. destruct a; [by apply IH|done].
Qed.

Lemma ek_updateWater_loop n g i x y : keeps I (updateWater_loop oracle n g i x y).
Proof.
  revert g. induction n as [|n IH]; intros g; apply keeps_wp; intros w HI; [done|].
  cbn [updateWater_loop]. sim_step. cbv zeta. sim_step; [done|].
  ek_stmt. ek_stmt. ek_stmt.
  apply (wp_bind_keeps I); [apply ek_extinguish|done|].
  intros _ w3 HI3. destruct a; [by apply IH|done].
Qed.

Lemma ek_updateOil_loop n g i x y : keeps I (updateOil_loop oracle n g i x y).
Proof.
  revert g. induction n as [|n IH]; intros g; apply keeps_wp; intros w HI; [done|].
  cbn [updateOil_loop]. sim_step. cbv zeta. sim_step; [done|].
  ek_stmt. ek_stmt. destruct a; [by apply IH|done].
Qed.

Lemma ek_updateAcid_loop n g i x y : keeps I (updateAcid_loop oracle n g i x y).
Proof.
  revert g. induction n as [|n IH]; intros g; apply keeps_wp; intros w HI; [done|].
  cbn [updateAcid_loop]. sim_step. cbv zeta. sim_step; [done|].
  ek_stmt. destruct a; [by apply IH|done].
Qed.

Lemma ek_updateSand i x y : keeps I (updateSand i x y).
Proof.
  apply keeps_wp. intros w HI. unfold updateSand. sim_step.
  by apply ek_updateSand_loop.
Qed.

Lemma ek_updateWater i x y : keeps I (updateWater oracle i x y).
Proof.
  apply keeps_wp. intros w HI. unfold updateWater. sim_step.
  by apply ek_updateWater_loop.
Qed.

Lemma ek_updateOil i x y : keeps I (updateOil oracle i x y).
Proof.
  apply keeps_wp. intros w HI. unfold updateOil. sim_step.
  by apply ek_updateOil_loop.
Qed.

Lemma ek_updateAcid i x y : keeps I (updateAcid oracle i x y).
Proof.
  apply keeps_wp. intros w HI. unfold updateAcid.
  sim_step. sim_step. sim_step. cbn [this draws id]. sim_step; [sim_go; ek_inv|].
  apply (wp_bind_keeps I); [apply ek_dissolve|cbn [this]; ek_inv|].
  intros _ w1 HI1. by apply ek_updateAcid_loop.
Qed.

Lemma ek_updateIce i x y : keeps I (updateIce oracle i x y).
Proof.
  apply keeps_wp. intros w HI. unfold updateIce.
  ek_stmt. sim_step. sim_step. sim_step; [|done]. by apply ek_freeze.
Qed.

Lemma ek_updateFire i x y : keeps I (updateFire oracle i x y).
Proof.
  apply keeps_wp. intros w HI. unfold updateFire.
  sim_step. sim_step. cbn [this draws id]. sim_step; [sim_go; ek_inv|].
  cbv zeta. ek_stmt.
  apply (wp_bind_keeps I); [apply ek_heatAndIgnite|done|].
  intros _ w1 HI1. sim_step. ek_stmt. sim_go; ek_inv.
Qed.

Lemma ek_updateSteam i x y : keeps I (updateSteam oracle i x y).
Proof.
  apply keeps_wp. intros w HI. unfold updateSteam.
  sim_step. sim_step. cbn [this draws id]. sim_step; [sim_go; ek_inv|].
  cbv zeta. ek_stmt. sim_go; ek_inv.
Qed.

Lemma ek_updatePlant i x y : keeps I (updatePlant oracle i x y).
Proof.
  apply keeps_wp. intros w HI. unfold updatePlant. sim_step.
  apply (wp_bind_cut I).
  { sim_step; [|done]. sim_step. sim_step. sim_step; [|done]. by apply ek_growPlant. }
  intros _ w1 HI1. sim_go; ek_inv.
Qed.

Lemma ek_updateTemperature i : keeps I (updateTemperature i).
Proof.
  apply updateTemperature_keeps. intros t j d HI _. by apply ek_add_temp.
Qed.

Lemma ek_falling_rule i x y : keeps I (falling_rule oracle i x y).
Proof.
  apply keeps_wp. intros w HI. unfold falling_rule. sim_step.
  destruct (aget (grid (this w)) i) as [[]|]; try done.
  - by apply ek_updateSand.
  - by apply ek_updateWater.
  - by apply ek_updateOil.
  - by apply ek_updateAcid.
  - by apply ek_updateIce.
Qed.

Lemma ek_rising_rule i x y : keeps I (rising_rule oracle i x y).
Proof.
  apply keeps_wp. intros w HI. unfold rising_rule. sim_step.
  destruct (aget (grid (this w)) i) as [[]|]; try done.
  - by apply ek_updateFire.
  - by apply ek_updatePlant.
  - by apply ek_updateSteam.
Qed.

Lemma ek_update : keeps I (update oracle).
Proof.
  apply keeps_wp. intros w HI. unfold update. sim_step. sim_step.
  apply (wp_bind_keeps I); [|done|].
  { apply keeps_for_each. intros y _. apply keeps_for_each. intros x _.
    apply ek_falling_rule. }
  intros _ w1 HI1.
  apply (wp_bind_keeps I); [|done|].
  { apply keeps_for_each. intros y _. apply keeps_for_each. intros x _.
    apply ek_rising_rule. }
  intros _ w2 HI2. sim_step.
  apply (wp_for_each I); [|done]. intros i _. apply ek_updateTemperature.
Qed.

Lemma ek_ticks n : keeps I (ticks oracle n).
Proof.
  induction n as [|n IH]; [by intros w HI|]. apply keeps_wp. intros w HI.
  cbn [ticks]. apply (wp_bind_keeps I); [apply ek_update|done|].
  intros _ w1 HI1. by apply IH.
Qed.

End Closure.

(** ** Counting cells *)

Lemma count_occ_insert {A} `{dec : EqDecision A} (l : list A) (i : nat) (a v m : A) :
  l !! i = Some a →
  (count_occ dec (<[i:=v]> l) m
   + (if decide (a = m) then 1 else 0)
   = count_occ dec l m + (if decide (v = m) then 1 else 0))%nat.
Proof.
  revert i. induction l as [|b l IH]; intros [|i] Hi; try done.
  - injection Hi as ->. simpl.
    destruct (dec v m), (dec a m);
      repeat case_decide; try done; lia.
  - simpl in *. specialize (IH i Hi).
    destruct (dec b m); lia.
Qed.

Lemma count_occ_aset {A} `{dec : EqDecision A} (l : list A) (i : Z) (a v m : A) :
  aget l i = Some a →
  (count_occ dec (aset l i v) m
   + (if decide (a = m) then 1 else 0)
   = count_occ dec l m + (if decide (v = m) then 1 else 0))%nat.
Proof.
  unfold aget, aset. destruct (i <? 0); [done|]. apply count_occ_insert.
Qed.

Lemma count_occ_aset_le {A} `{dec : EqDecision A} (l : list A) (i : Z) (v m : A) :
  v ≠ m →
  (count_occ dec (aset l i v) m ≤ count_occ dec l m)%nat.
Proof.
  intros Hv. destruct (aget l i) as [a|] eqn:E.
  - pose proof (count_occ_aset l i a v m E) as Hc.
    destruct (decide (v = m)); [done|]. destruct (decide (a = m)); lia.
  - unfold aget, aset in *. destruct (i <? 0); [done|].
    rewrite list_insert_ge; [done|]. by apply lookup_ge_None.
Qed.

Lemma count_occ_aswap {A} `{dec : EqDecision A} (l : list A) (i j : Z) (m : A) :
  count_occ dec (aswap l i j) m = count_occ dec l m.
Proof.
  unfold aswap.
  destruct (aget l i) as [a|] eqn:Ei; [|done].
  destruct (aget l j) as [b|] eqn:Ej; [|done].
  pose proof (count_occ_aset l i a b m Ei) as H1.
  assert (aget (aset l i b) j = Some b) as Ej'.
  { rewrite aget_aset, Ei. destruct (decide (i = j)); [done|exact Ej]. }
  pose proof (count_occ_aset _ j b a m Ej') as H2.
  destruct (decide (a = m)), (decide (b = m)); lia.
Qed.

(** [swap] moves cells around: it conserves the number of cells of every
    material, whatever its two indices. *)
Theorem swap_conserves_materials (g : Grid) (i j : Z) (m : Material) :
  cells_of m (swap g i j) = cells_of m g.
Proof.
  unfold cells_of, swap. destruct (_ && _); [|done]. simpl.
  apply count_occ_aswap.
Qed.

(** No rule creates Sand, Wall, Oil or Acid: over any number of ticks, at
    any gravity strength, the number of cells of each of them never grows. *)
Theorem ticks_create_no_sand_wall_oil_acid (oracle : nat → Q) (w : World) (n : nat) :
  Forall (λ m, (cells_of m (this (exec (ticks oracle n) w)) ≤ cells_of m (this w))%nat)
         [SAND; WALL; OIL; ACID].
Proof.
  assert (∀ m, ¬ engine_writes m →
     (cells_of m (this (exec (ticks oracle n) w)) ≤ cells_of m (this w))%nat) as Hm.
  { intros m Hm.
    apply (ek_ticks oracle (λ t, (cells_of m t ≤ cells_of m (this w))%nat)); [| | |done].
    - intros t i j HI. by rewrite swap_conserves_materials.
    - intros t i v HI Hv. unfold cells_of in *. simpl.
      etrans; [apply count_occ_aset_le|done]. by intros ->.
    - done. }
  repeat (apply Forall_cons_2; [apply Hm; unfold engine_writes; intros H; by repeat destruct H as [H|H]|]).
  apply Forall_nil_2.
Qed.

(** ** Shape tools *)

Lemma get_EMPTY_inBounds (t : Grid) x y :
  get t x y = Some (material_id EMPTY) → inBounds t x y = true.
Proof. unfold get. by destruct (inBounds t x y). Qed.

Lemma with_grid_same (t : Grid) : with_grid t (grid t) = t.
Proof. by destruct t. Qed.

Lemma aset_same {A} (l : list A) i a : aget l i = Some a → aset l i a = l.
Proof.
  unfold aget, aset. destruct (i <? 0); [done|]. apply list_insert_id.
Qed.

(** Stamping Empty on an Empty cell changes nothing. *)
Lemma set_EMPTY_on_EMPTY (t : Grid) x y :
  get t x y = Some (material_id EMPTY) → set t x y EMPTY = t.
Proof.
  intros Hg. unfold set. rewrite (get_EMPTY_inBounds _ _ _ Hg).
  unfold write_cell. rewrite aset_same by (by apply get_EMPTY_cell).
  apply with_grid_same.
Qed.

(** Stamping on an Empty cell leaves the cells that are not Empty alone. *)
Lemma spares_set G (t : Grid) x y m :
  spares G t → get t x y = Some (material_id EMPTY) → spares G (set t x y m).
Proof.
  intros HS Hg i mi Hi Hne. destruct (HS i mi Hi Hne) as [Hc Hm].
  pose proof (get_EMPTY_cell _ _ _ Hg) as He.
  assert (y * width t + x ≠ i) as Hidx by (intros <-; congruence).
  unfold set. rewrite (get_EMPTY_inBounds _ _ _ Hg).
  destruct m; cbn [grid metadata write_cell write_life write_temp with_grid with_metadata];
    rewrite ?aget_amod_ne, ?aget_aset_ne by done; done.
Qed.

Section Shapes.
Variable oracle : nat → Q.
Implicit Types (t : Grid) (w : World).

(** The stamp of [setCircle] and of the filled [drawRect]: a guarded [set]. *)
Lemma guarded_set_keeps (I : Grid → Prop) x y m :
  (∀ t, I t → get t x y = Some (material_id EMPTY) → I (set t x y m)) →
  keeps I (t <- gets id ;;
           when (inBounds t x y
                 && bool_decide (get t x y = Some (material_id EMPTY)))
             (modify (λ t, set t x y m))).
Proof.
  intros HI. apply keeps_wp. intros w Hw. sim_go; [|done].
  split_guards. apply HI; [done|]. by eapply bool_decide_eq_true_1.
Qed.

Lemma setCircle_keeps (I : Grid → Prop) x y m radius probability :
  (∀ t x' y', I t → get t x' y' = Some (material_id EMPTY) → I (set t x' y' m)) →
  keeps I (setCircle oracle x y m radius probability).
Proof.
  intros HI. unfold setCircle.
  apply keeps_for_each. intros j _. apply keeps_for_each. intros i _.
  apply keeps_wp. intros w Hw. sim_step. sim_step; [|done]. sim_step. cbn [this draws].
  sim_step; [|done].
  apply (guarded_set_keeps I); [|done]. intros t. apply HI.
Qed.

Lemma drawLine_loop_keeps (I : Grid → Prop) n x1 y1 x2 y2 m thickness dx dy sx sy err :
  (∀ t x' y', I t → get t x' y' = Some (material_id EMPTY) → I (set t x' y' m)) →
  keeps I (drawLine_loop oracle n x1 y1 x2 y2 m thickness dx dy sx sy err).
Proof.
  intros HI. revert x1 y1 err.
  induction n as [|n IH]; intros x1 y1 err; apply keeps_wp; intros w Hw; [done|].
  cbn [drawLine_loop].
  apply (wp_bind_keeps I); [by apply setCircle_keeps|done|].
  intros _ w1 Hw1. sim_step; [done|]. cbv zeta. by apply IH.
Qed.

Lemma drawRect_filled_keeps (I : Grid → Prop) x1 y1 x2 y2 m :
  (∀ t x' y', I t → get t x' y' = Some (material_id EMPTY) → I (set t x' y' m)) →
  keeps I (drawRect x1 y1 x2 y2 m true).
Proof.
  intros HI. unfold drawRect.
  apply keeps_for_each. intros y _. apply keeps_for_each. intros x _.
  apply guarded_set_keeps. intros t. apply HI.
Qed.

End Shapes.

(** [setCircle], [drawLine] and the filled [drawRect] only write cells that
    hold Empty: a cell that holds anything else keeps its material and its
    metadata, whatever the arguments and the random source. *)
Theorem brush_line_and_filled_rect_spare_cells (oracle : nat → Q) (w : World)
    (i : Z) (m : Material) :
  aget (grid (this w)) i = Some m → m ≠ EMPTY →
  ∀ x1 y1 x2 y2 material size probability n,
    let spared w' :=
      aget (grid (this w')) i = Some m
      ∧ aget (metadata (this w')) i = aget (metadata (this w)) i in
    spared (exec (setCircle oracle x1 y1 material size probability) w)
    ∧ spared (exec (drawLine oracle n x1 y1 x2 y2 material size) w)
    ∧ spared (exec (drawRect x1 y1 x2 y2 material true) w).
Proof.
  intros Hi Hm x1 y1 x2 y2 material size probability n spared.
  assert (spares (this w) (this w)) as H0 by (by intros ? ? ? ?).
  assert (∀ t x' y', spares (this w) t → get t x' y' = Some (material_id EMPTY) →
                     spares (this w) (set t x' y' material)) as Hset
    by (intros; by apply spares_set).
  repeat split.
  - by apply (setCircle_keeps oracle (spares (this w)) _ _ _ _ _ Hset w H0 i m).
  - by apply (setCircle_keeps oracle (spares (this w)) _ _ _ _ _ Hset w H0 i m).
  - by apply (drawLine_loop_keeps oracle (spares (this w)) _ _ _ _ _ _ _ _ _ _ _ _ Hset w H0 i m).
  - by apply (drawLine_loop_keeps oracle (spares (this w)) _ _ _ _ _ _ _ _ _ _ _ _ Hset w H0 i m).
  - by apply (drawRect_filled_keeps (spares (this w)) _ _ _ _ _ Hset w H0 i m).
  - by apply (drawRect_filled_keeps (spares (this w)) _ _ _ _ _ Hset w H0 i m).
Qed.

Lemma brush_line_and_filled_rect_spare_cells_witness :
  let spared w' :=
    aget (grid (this w')) 0 = Some SAND
    ∧ aget (metadata (this w')) 0 = aget (metadata (this sand_corner)) 0 in
  spared (exec (setCircle (always 0) 0 0 WALL 1 1) sand_corner)
  ∧ spared (exec (drawLine (always 0) 5 0 0 2 2 WALL 1) sand_corner)
  ∧ spared (exec (drawRect 0 0 2 2 WALL true) sand_corner).
Proof.
  assert (SAND ≠ EMPTY) as Hne by discriminate.
  exact (brush_line_and_filled_rect_spare_cells (always 0) sand_corner 0 SAND
           eq_refl Hne 0 0 2 2 WALL 1 1%Q 5%nat).
Defined.

(** Drawing with Empty, which is what the eraser does, changes nothing
    through [setCircle] and [drawLine]: both only ever write cells that
    already hold Empty. *)
Theorem erasing_with_brush_or_line_is_void (oracle : nat → Q) (w : World)
    (x1 y1 x2 y2 size : Z) (probability : Q) (n : nat) :
  this (exec (setCircle oracle x1 y1 EMPTY size probability) w) = this w
  ∧ this (exec (drawLine oracle n x1 y1 x2 y2 EMPTY size) w) = this w.
Proof.
  assert (∀ t x' y', t = this w → get t x' y' = Some (material_id EMPTY) →
                     set t x' y' EMPTY = this w) as Hset
    by (intros t x' y' -> Hg; by apply set_EMPTY_on_EMPTY).
  split.
  - by apply (setCircle_keeps oracle (λ t, t = this w) _ _ _ _ _ Hset w).
  - by apply (drawLine_loop_keeps oracle (λ t, t = this w) _ _ _ _ _ _ _ _ _ _ _ _ Hset w).
Qed.

(** *** [drawLine] terminates *)


Section Line.
Variable oracle : nat → Q.
Variables (x0 y0 x2 y2 : Z) (material : Material) (thickness : Z).

Let dx := Z.abs (x2 - x0).
Let dy := Z.abs (y2 - y0).
Let sx := if x0 <? x2 then 1 else -1.
Let sy := if y0 <? y2 then 1 else -1.


End Line.


(** ** More on the cell store *)

Lemma set_shape (g : Grid) x y m :
  width (set g x y m) = width g ∧ height (set g x y m) = height g
  ∧ parent (set g x y m) = parent g.
Proof. unfold set. destruct (inBounds g x y); [|done]. by destruct m. Qed.

Lemma set_grid (g : Grid) x y m :
  inBounds g x y = true → grid (set g x y m) = aset (grid g) (y * width g + x) m.
Proof. intros Hb. unfold set. rewrite Hb. by destruct m. Qed.

Lemma inBounds_set (g : Grid) x y m x' y' :
  inBounds (set g x y m) x' y' = inBounds g x' y'.
Proof.
  unfold inBounds. destruct (set_shape g x y m) as (-> & -> & _). done.
Qed.

(** Reading back what [set] wrote, and every other cell as it was. *)
Theorem get_after_set (g : Grid) (x y : Z) (m : Material) (x' y' : Z) :
  wf g → inBounds g x y = true →
  get (set g x y m) x y = Some (material_id m)
  ∧ ((x', y') ≠ (x, y) → get (set g x y m) x' y' = get g x' y').
Proof.
  intros Hwf Hb. pose proof (cell_index _ _ _ Hwf Hb) as Vi.
  destruct (set_shape g x y m) as (HW & _).
  unfold get. rewrite !inBounds_set, Hb, HW, set_grid by done. split.
  - by rewrite aget_aset_eq.
  - intros Hne. destruct (inBounds g x' y') eqn:Hb'; [|done].
    rewrite aget_aset_ne; [done|].
    apply inBounds_spec in Hb, Hb'. intros E.
    apply index_inj in E; [|lia..]. destruct E as [-> ->]. done.
Qed.

Lemma get_after_set_witness :
  get (set blank_10x10 3 4 WATER) 3 4 = Some (material_id WATER)
  ∧ ((4, 4) ≠ (3, 4) →
     get (set blank_10x10 3 4 WATER) 4 4 = get blank_10x10 4 4).
Proof.
  apply (get_after_set blank_10x10 3 4 WATER 4 4).
  - repeat split; vm_compute; congruence.
  - reflexivity.
Defined.

(** The metadata [set] gives a new Fire, Steam or Acid cell, and the
    metadata of every other cell as it was. *)
Theorem set_initialises_metadata (g : Grid) (x y : Z) (m : Material) (x' y' : Z) :
  wf g → inBounds g x y = true →
  getMeta (set g x y FIRE) x y = Some (mkMeta 100 400)
  ∧ getMeta (set g x y STEAM) x y = Some (mkMeta 200 110)
  ∧ getMeta (set g x y ACID) x y = set_life 500 <$> getMeta g x y
  ∧ ((x', y') ≠ (x, y) → getMeta (set g x y m) x' y' = getMeta g x' y').
Proof.
  intros Hwf Hb. pose proof (cell_index _ _ _ Hwf Hb) as Vi.
  destruct (valid_index_cell _ _ Vi) as [m0 Hm0].
  destruct (wf_meta_Some _ _ _ Hwf Hm0) as [md Hmd].
  unfold getMeta. rewrite !inBounds_set, Hb.
  repeat split.
  - unfold set. rewrite Hb.
    cbn [metadata width write_cell write_life write_temp with_grid with_metadata].
    rewrite !aget_amod, Hmd. by case_decide.
  - unfold set. rewrite Hb.
    cbn [metadata width write_cell write_life write_temp with_grid with_metadata].
    rewrite !aget_amod, Hmd. by case_decide.
  - unfold set. rewrite Hb.
    cbn [metadata width write_cell write_life write_temp with_grid with_metadata].
    rewrite !aget_amod. by case_decide.
  - intros Hne. destruct (inBounds g x' y') eqn:Hb'; [|done].
    assert (y * width g + x ≠ y' * width g + x') as Hidx.
    { apply inBounds_spec in Hb, Hb'. intros E.
      apply index_inj in E; [|lia..]. destruct E as [-> ->]. done. }
    unfold set. rewrite Hb.
    destruct m;
      cbn [metadata width write_cell write_life write_temp with_grid with_metadata];
      by rewrite ?aget_amod_ne.
Qed.

Lemma set_initialises_metadata_witness :
  getMeta (set blank_10x10 3 4 FIRE) 3 4 = Some (mkMeta 100 400)
  ∧ getMeta (set blank_10x10 3 4 STEAM) 3 4 = Some (mkMeta 200 110)
  ∧ getMeta (set blank_10x10 3 4 ACID) 3 4 = set_life 500 <$> getMeta blank_10x10 3 4
  ∧ ((4, 4) ≠ (3, 4) →
     getMeta (set blank_10x10 3 4 WATER) 4 4 = getMeta blank_10x10 4 4).
Proof.
  apply (set_initialises_metadata blank_10x10 3 4 WATER 4 4).
  - repeat split; vm_compute; congruence.
  - reflexivity.
Defined.

Lemma inBounds_index (g : Grid) i :
  wf g → inBounds g (Z.rem i (width g)) (i / width g) = true → valid_index g i.
Proof.
  intros (HW & HH & Hg & _) [Hx Hy]%inBounds_spec. unfold valid_index. rewrite Hg.
  pose proof (Z.div_mod i (width g)). pose proof (Z.mod_pos_bound i (width g) HW).
  nia.
Qed.

(** [canDisplace] answers false as soon as one of its two indices is not an
    index of the grid; when it answers true the target is a cell that does
    not hold Wall. *)
Theorem canDisplace_needs_two_cells (g : Grid) (i1 i2 : Z) :
  wf g → canDisplace g i1 i2 = true →
  valid_index g i1 ∧ valid_index g i2
  ∧ ∃ m, aget (grid g) i2 = Some m ∧ m ≠ WALL.
Proof.
  intros Hwf Hc. split; [|split; [|by eapply canDisplace_target]].
  - unfold canDisplace in Hc.
    destruct (inBounds g (Z.rem i1 (width g)) (i1 / width g)) eqn:E; [|done].
    by apply inBounds_index.
  - unfold canDisplace in Hc.
    destruct (inBounds g (Z.rem i2 (width g)) (i2 / width g)) eqn:E;
      [|by rewrite orb_true_r in Hc].
    by apply inBounds_index.
Qed.

Lemma canDisplace_needs_two_cells_witness :
  valid_index (set (set blank_10x10 0 0 SAND) 0 1 WATER) 0
  ∧ valid_index (set (set blank_10x10 0 0 SAND) 0 1 WATER) 10
  ∧ ∃ m, aget (grid (set (set blank_10x10 0 0 SAND) 0 1 WATER)) 10 = Some m
         ∧ m ≠ WALL.
Proof.
  apply (canDisplace_needs_two_cells (set (set blank_10x10 0 0 SAND) 0 1 WATER) 0 10).
  - repeat split; vm_compute; congruence.
  - reflexivity.
Defined.




(** ** Edge behaviour of the rules *)

Lemma bottom_row_returns (oracle : nat → Q) (w : World) (i x y : Z) :
  height (this w) - 1 ≤ y →
  updateSand i x y w = (tt, w)
  ∧ updateWater oracle i x y w = (tt, w)
  ∧ updateOil oracle i x y w = (tt, w).
Proof.
  intros Hy.
  assert ((y + 0 >=? height (this w) - 1) = true) as Hb by (apply Z.geb_le; lia).
  repeat split.
  - unfold updateSand, bind, gets. cbn [fst snd].
    destruct (Z.to_nat _); [done|]. cbn [updateSand_loop]. unfold bind, gets.
    cbn [fst snd id]. by rewrite Hb.
  - unfold updateWater, bind, gets. cbn [fst snd].
    destruct (Z.to_nat _); [done|]. cbn [updateWater_loop]. unfold bind at 1, gets.
    cbn [fst snd id]. by rewrite Hb.
  - unfold updateOil, bind, gets. cbn [fst snd].
    destruct (Z.to_nat _); [done|]. cbn [updateOil_loop]. unfold bind at 1, gets.
    cbn [fst snd id]. by rewrite Hb.
Qed.

Lemma settled_update (oracle : nat → Q) (w : World) :
  settled (this w) →
  let t' := this (exec (update oracle) w) in
  width t' = width (this w) ∧ height t' = height (this w)
  ∧ grid t' = grid (this w).
Proof.
  intros Hs.
  assert (for_each (reverse (below_n (height (this w))))
            (sweep_row (falling_rule oracle) (width (this w))) w = (tt, w)) as E1.
  { apply for_each_idle. intros y _. unfold sweep_row. apply for_each_idle.
    intros x Hx%elem_of_row_order.
    unfold falling_rule, bind, gets. cbn [fst snd].
    destruct (aget (grid (this w)) (y * width (this w) + x)) as [m|] eqn:Em; [|done].
    destruct (Hs _ _ Em) as [->| [->| [Hm Hi]]]; [done|done|].
    assert (height (this w) - 1 ≤ y) as Hy by nia.
    destruct (bottom_row_returns oracle w (y * width (this w) + x) x y Hy)
      as (HS & HW & HO).
    by destruct Hm as [->| [->| ->]]. }
  assert (for_each (below_n (height (this w)))
            (sweep_row (rising_rule oracle) (width (this w))) w = (tt, w)) as E2.
  { apply for_each_idle. intros y _. unfold sweep_row. apply for_each_idle.
    intros x _. apply rising_rule_idle. intros m Em.
    destruct (Hs _ _ Em) as [->| [->| [[->| [->| ->]] _]]]; by split_and!. }
  unfold exec, update, bind, gets. cbn [fst snd]. rewrite E1. cbn [fst snd].
  rewrite E2. cbn [fst snd].
  apply (keeps_for_each (λ t, width t = width (this w) ∧ height t = height (this w)
                              ∧ grid t = grid (this w))); [|done].
  intros j _. apply updateTemperature_keeps. by intros t k d Ht _.
Qed.

(** The gravity loops of sand, water and oil return at once on the bottom
    row, before any other test of the rule.  So in a grid whose sand, water
    and oil all lie on the bottom row and whose other cells are Empty or
    Wall, no tick changes the material of a cell, whatever the temperatures,
    the gravity strength and the random values: water on the bottom row
    stays Water at 150 degrees as it does below zero, and oil there stays
    Oil however hot it is. *)
Theorem bottom_row_is_inert (oracle : nat → Q) (w : World) (n : nat) :
  wf (this w) → settled (this w) →
  grid (this (exec (ticks oracle n) w)) = grid (this w).
Proof.
  intros _ Hs. revert w Hs. induction n as [|n IH]; intros w Hs; [done|].
  rewrite ticks_S.
  destruct (settled_update oracle w Hs) as (HW & HH & HG).
  rewrite IH; [done|]. unfold settled. by rewrite HW, HH, HG.
Qed.

Lemma bottom_row_is_inert_witness :
  grid (this (exec (ticks (always 0) 5) hot_puddle)) = grid (this hot_puddle)
  ∧ aget (grid (this hot_puddle)) 7 = Some WATER
  ∧ temp (meta_at (this hot_puddle) 7) == 150.
Proof.
  split; [|by vm_compute].
  apply (bottom_row_is_inert (always 0) hot_puddle 5).
  - by vm_compute.
  - intros i m Hi. pose proof (aget_Some_range _ _ _ Hi) as Hr.
    change (0 ≤ i < 9) in Hr.
    assert (i = 0 ∨ i = 1 ∨ i = 2 ∨ i = 3 ∨ i = 4 ∨ i = 5 ∨ i = 6 ∨ i = 7 ∨ i = 8)
      as Hc by lia.
    repeat (destruct Hc as [->|Hc]); try subst i;
      injection Hi as <-; vm_compute; intuition congruence.
Defined.

(** The temperature pass never changes a material or a lifespan and never
    touches the metadata of an Empty cell; run on an Empty cell or outside
    the grid it does nothing at all. *)
Theorem updateTemperature_moves_only_heat (w : World) (i : Z) :
  let t' := this (exec (updateTemperature i) w) in
  grid t' = grid (this w)
  ∧ (∀ j, life (meta_at t' j) = life (meta_at (this w) j))
  ∧ (∀ j, aget (grid (this w)) j = Some EMPTY → meta_at t' j = meta_at (this w) j)
  ∧ (aget (grid (this w)) i = Some EMPTY ∨ ¬ valid_index (this w) i →
     updateTemperature i w = (tt, w)).
Proof.
  intros t'. split_and!.
  - apply (updateTemperature_keeps (λ t, grid t = grid (this w))); [|done].
    by intros t j d Ht _.
  - apply (updateTemperature_keeps
             (λ t, ∀ j, life (meta_at t j) = life (meta_at (this w) j))); [|done].
    intros t j d Ht _ k. unfold add_temp. by rewrite life_meta_at_amod.
  - apply (updateTemperature_keeps
             (λ t, grid t = grid (this w)
                   ∧ ∀ j, aget (grid (this w)) j = Some EMPTY
                          → meta_at t j = meta_at (this w) j)); [|done].
    intros t j d [Hg Ht] Hj. split; [done|]. intros k Hk.
    unfold add_temp. rewrite meta_at_amod_ne; [by apply Ht|]. intros ->.
    by rewrite Hg in Hj.
  - intros Hi. unfold updateTemperature, bind, gets. cbn [fst snd id].
    assert ((i <? 0) || (i >=? grid_length (this w)) || cell_is (this w) i EMPTY = true) as ->;
      [|done].
    destruct Hi as [Hi|Hi].
    + unfold cell_is. rewrite Hi, bool_decide_eq_true_2 by done. by rewrite orb_true_r.
    + unfold valid_index in Hi.
      destruct (Z.ltb_spec i 0), (Z.geb_spec i (grid_length (this w))); try done. lia.
Qed.

(** ** A lone grain of sand *)

Lemma canDisplace_into_EMPTY (t : Grid) i j :
  wf t → valid_index t i → aget (grid t) j = Some EMPTY → canDisplace t i j = true.
Proof.
  intros Hwf Vi Hj. unfold canDisplace.
  rewrite !index_inBounds by eauto using cell_valid_index. simpl.
  unfold cell_is. by rewrite Hj, bool_decide_eq_true_2.
Qed.

Section Grain.
Variable oracle : nat → Q.
Variables W H G : Z.
Implicit Types (t : Grid) (w : World) (p : Z).

Lemma grain_cell p t j m :
  grain W H G p t → aget (grid t) j = Some m →
  (j = p ∧ m = SAND) ∨ (j ≠ p ∧ m = EMPTY).
Proof.
  intros (_ & _ & _ & _ & Hp & Ho) Hj. destruct (decide (j = p)) as [->|Hne].
  - left. split; [done|congruence].
  - right. split; [done|]. by eapply Ho.
Qed.

Lemma grain_swap p q t :
  grain W H G p t → aget (grid t) q = Some EMPTY → grain W H G q (swap t p q).
Proof.
  intros (HW & HH & Hwf & HG & Hp & Ho) Hq.
  pose proof (cell_valid_index _ _ _ Hp) as Vp.
  pose proof (cell_valid_index _ _ _ Hq) as Vq.
  assert (p ≠ q) as Hpq by congruence.
  split_and!; try (by rewrite swap_valid).
  - by apply wf_swap.
  - rewrite grid_swap by done. by case_decide.
  - intros j m Hj. rewrite grid_swap by done.
    case_decide; [done|]. case_decide; [subst; congruence|]. by apply Ho.
Qed.

Lemma grain_add_temp p t j d : grain W H G p t → grain W H G p (add_temp t j d).
Proof.
  intros (HW & HH & Hwf & HG & Hp & Ho). split_and!; try done. by apply wf_amod.
Qed.

(** The gravity loop on the grain: one row down per iteration, down to the
    bottom row. *)
Lemma grain_updateSand_loop n g x y w :
  0 ≤ x < W → 0 ≤ y → 0 ≤ g → y + g < H →
  grain W H G ((y + g) * W + x) (this w) →
  wp (updateSand_loop n g (y * W + x) x y)
     (λ _ w', grain W H G (Z.min (y + g + Z.of_nat n) (H - 1) * W + x) (this w')) w.
Proof.
  revert g w. induction n as [|n IH]; intros g w Hx Hy Hg Hlt HG.
  { apply wp_ret. by replace (Z.min (y + g + Z.of_nat 0) (H - 1)) with (y + g) by lia. }
  cbn [updateSand_loop]. sim_step. cbn [id].
  destruct HG as (HW & HH & Hwf & Hgr & Hp & Ho). rewrite HW, HH.
  destruct (Z.geb_spec (y + g) (H - 1)) as [Hbot|Hbot].
  { apply wp_ret. replace (Z.min (y + g + Z.of_nat (S n)) (H - 1)) with (y + g) by lia.
    unfold grain. by split_and!. }
  cbv zeta. replace (y * W + x + g * W) with ((y + g) * W + x) by lia.
  pose proof Hwf as (HW0 & HH0 & Hlen & _). rewrite HW in HW0.
  assert (aget (grid (this w)) ((y + g) * W + x + W) = Some EMPTY) as Hbelow.
  { assert (valid_index (this w) ((y + g) * W + x + W)) as V.
    { unfold valid_index. rewrite Hlen, HW, HH. nia. }
    destruct (valid_index_cell _ _ V) as [m Hm]. rewrite Hm. f_equal.
    apply (Ho ((y + g) * W + x + W) m); [lia|done]. }
  rewrite canDisplace_into_EMPTY by eauto using cell_valid_index.
  sim_go.
  replace (Z.min (y + g + Z.of_nat (S n)) (H - 1)) with (Z.min (y + (g + 1) + Z.of_nat n) (H - 1)) by lia.
  apply IH; [lia..|].
  replace ((y + (g + 1)) * W + x) with ((y + g) * W + x + W) by lia.
  apply grain_swap; [unfold grain; by split_and!|done].
Qed.

Lemma grain_quiet_falling p t i m :
  grain W H G p t → i ≠ p → aget (grid t) i = Some m →
  m ≠ SAND ∧ m ≠ WATER ∧ m ≠ OIL ∧ m ≠ ACID ∧ m ≠ ICE.
Proof.
  intros HG Hne Hi. by destruct (grain_cell _ _ _ _ HG Hi) as [[? _]|[_ ->]].
Qed.

Lemma grain_quiet_rising p t i m :
  grain W H G p t → aget (grid t) i = Some m → m ≠ FIRE ∧ m ≠ STEAM ∧ m ≠ PLANT.
Proof.
  intros HG Hi. by destruct (grain_cell _ _ _ _ HG Hi) as [[_ ->]|[_ ->]].
Qed.

Lemma grain_falling_rows_idle p w ys :
  grain W H G p (this w) →
  (∀ y x, y ∈ ys → 0 ≤ x < W → y * W + x ≠ p) →
  for_each ys (sweep_row (falling_rule oracle) W) w = (tt, w).
Proof.
  intros HG Hq. apply for_each_idle. intros y Hy. apply for_each_idle. intros x Hx.
  apply falling_rule_idle. intros m. apply grain_quiet_falling with p; [done|].
  apply Hq; [done|]. by apply elem_of_row_order in Hx.
Qed.

(** The first pass moves the grain [Z.to_nat G] rows down, or to the bottom. *)
Lemma grain_falling_pass x y w :
  0 ≤ x < W → 0 ≤ y < H → 0 ≤ G → grain W H G (y * W + x) (this w) →
  wp (for_each (reverse (below_n H)) (sweep_row (falling_rule oracle) W))
     (λ _ w', grain W H G (Z.min (y + G) (H - 1) * W + x) (this w')) w.
Proof.
  intros Hx Hy HG0 HG.
  unfold below_n. replace H with (y + (H - y)) at 1 by lia.
  rewrite seqZ_app, (seqZ_cons (0 + y)) by lia. rewrite Z.add_0_l.
  rewrite reverse_app, reverse_cons, <- app_assoc.
  unfold wp. rewrite for_each_app. unfold exec.
  rewrite (grain_falling_rows_idle (y * W + x) w
             (reverse (seqZ (Z.succ y) (Z.pred (H - y))))); [|done|].
  2:{ intros y' x' Hy'%elem_of_reverse%elem_of_seqZ Hx' E.
      apply index_inj in E; [lia|done..]. }
  cbn [snd]. rewrite for_each_app. unfold exec.
  (* the row of the grain *)
  assert (wp (sweep_row (falling_rule oracle) W y)
             (λ _ w', grain W H G (Z.min (y + G) (H - 1) * W + x) (this w')) w) as Hrow.
  { unfold sweep_row.
    assert (x ∈ row_order W y) as Hin by (by apply elem_of_row_order).
    apply list_elem_of_split in Hin as (l1 & l2 & Hl).
    pose proof (NoDup_row_order W y) as Hnd. rewrite Hl in Hnd.
    apply NoDup_app in Hnd as (_ & Hl1 & [Hl2 _]%NoDup_cons).
    assert (∀ x', x' ∈ l1 ∨ x' ∈ l2 → 0 ≤ x' < W ∧ x' ≠ x) as Hcols.
    { intros x' Hx'. split.
      - apply (elem_of_row_order W y). rewrite Hl, elem_of_app, elem_of_cons. tauto.
      - intros ->. destruct Hx' as [Hx'|Hx']; [by apply Hl1 in Hx'; apply Hx'; left|done]. }
    rewrite Hl. unfold wp. rewrite for_each_app. unfold exec.
    rewrite (for_each_idle l1).
    2:{ intros x' Hx'. destruct (Hcols x' (or_introl Hx')) as [Hr Hne].
        apply falling_rule_idle. intros m.
        apply grain_quiet_falling with (y * W + x); [done|].
        intros E. apply index_inj in E; [lia|done..]. }
    cbn [snd for_each]. unfold bind at 1.
    assert (falling_rule oracle (y * W + x) x y w = updateSand (y * W + x) x y w) as ->.
    { unfold falling_rule, bind, gets. cbn [fst snd].
      by destruct HG as (_ & _ & _ & _ & -> & _). }
    assert (wp (updateSand (y * W + x) x y)
               (λ _ w', grain W H G (Z.min (y + G) (H - 1) * W + x) (this w')) w) as HS.
    { unfold updateSand. sim_step.
      pose proof HG as (_ & _ & _ & Hgr & _). rewrite Hgr.
      pose proof (grain_updateSand_loop (Z.to_nat G) 0 x y w) as HL.
      rewrite Z.add_0_r, Z2Nat.id in HL by lia. apply HL; [lia..|done]. }
    unfold wp in HS. rewrite for_each_idle; [done|].
    intros x' Hx'. destruct (Hcols x' (or_intror Hx')) as [Hr Hne].
    apply falling_rule_idle. intros m. eapply grain_quiet_falling; [exact HS|].
    intros E. apply index_inj in E; [lia|done..]. }
  unfold wp in Hrow. cbn [for_each].
  change ((sweep_row (falling_rule oracle) W y;; ret ()) w).2
    with (sweep_row (falling_rule oracle) W y w).2.
  rewrite (grain_falling_rows_idle (Z.min (y + G) (H - 1) * W + x)); [done|done|].
  intros y' x' Hy'%elem_of_reverse%elem_of_seqZ Hx' E.
  apply index_inj in E; [lia|done..].
Qed.

(** One tick on the grain. *)
Lemma grain_update x y w :
  0 ≤ x < W → 0 ≤ y < H → 0 ≤ G → grain W H G (y * W + x) (this w) →
  wp (update oracle)
     (λ _ w', grain W H G (Z.min (y + G) (H - 1) * W + x) (this w')) w.
Proof.
  intros Hx Hy HG0 HG.
  assert (width (this w) = W ∧ height (this w) = H)
    as (HW & HH) by (by destruct HG as (? & ? & _)).
  unfold update. sim_step. sim_step. rewrite HW, HH.
  apply wp_bind. eapply wp_mono; [by apply grain_falling_pass|]. cbn beta.
  intros _ w1 HG1. apply wp_bind. unfold wp at 1.
  rewrite for_each_idle.
  2:{ intros y' _. apply for_each_idle. intros x' _. apply rising_rule_idle.
      intros m. by eapply grain_quiet_rising. }
  cbn [fst snd]. sim_step.
  apply (wp_for_each (grain W H G (Z.min (y + G) (H - 1) * W + x))); [|done].
  intros i _. apply updateTemperature_keeps. intros t j d Ht _. by apply grain_add_temp.
Qed.

Lemma grain_ticks k x y w :
  0 ≤ x < W → 0 ≤ y < H → 0 ≤ G → grain W H G (y * W + x) (this w) →
  grain W H G (Z.min (y + Z.of_nat k * G) (H - 1) * W + x)
        (this (exec (ticks oracle k) w)).
Proof.
  revert y w. induction k as [|k IH]; intros y w Hx Hy HG0 HG.
  - by replace (Z.min (y + Z.of_nat 0 * G) (H - 1)) with y by lia.
  - rewrite ticks_S. pose proof (grain_update x y w Hx Hy HG0 HG) as HU. unfold wp in HU.
    replace (Z.min (y + Z.of_nat (S k) * G) (H - 1))
      with (Z.min (Z.min (y + G) (H - 1) + Z.of_nat k * G) (H - 1)) by nia.
    apply IH; [done|lia|done|done].
Qed.

End Grain.

(** A grain of sand dropped by [set] on a well-formed grid that is Empty
    everywhere falls straight down, [gravityStrength] rows per tick, and
    rests on the bottom row: after [k] ticks the only cell that is not Empty
    is the Sand at [(x, min (y + k * gravityStrength) (height - 1))], for
    every size of grid, every start and every random source. *)
Theorem sand_grain_falls_gravity_rows_per_tick (oracle : nat → Q) (t0 : Grid)
    (x y : Z) (d k : nat) :
  wf t0 → Forall (λ m, m = EMPTY) (grid t0) → inBounds t0 x y = true →
  0 ≤ gravityStrength (parent t0) →
  let t := this (exec (ticks oracle k) (mkWorld (set t0 x y SAND) d)) in
  let row := Z.min (y + Z.of_nat k * gravityStrength (parent t0)) (height t0 - 1) in
  aget (grid t) (row * width t0 + x) = Some SAND
  ∧ ∀ j m, j ≠ row * width t0 + x → aget (grid t) j = Some m → m = EMPTY.
Proof.
  intros Hwf Hall Hb HG0 t row.
  pose proof (cell_index _ _ _ Hwf Hb) as Vi. apply inBounds_spec in Hb as Hxy.
  assert (grain (width t0) (height t0) (gravityStrength (parent t0))
                (y * width t0 + x) (set t0 x y SAND)) as HG.
  { destruct (set_shape t0 x y SAND) as (HW & HH & HP).
    split_and!; try done.
    - apply (wf_same_shape t0); try done.
      + by rewrite set_grid, length_aset.
      + unfold set. by rewrite Hb.
    - by rewrite HP.
    - rewrite set_grid by done. by apply aget_aset_eq.
    - intros j m Hj. rewrite set_grid, aget_aset_ne by done.
      by apply (cells_Forall (λ m, m = EMPTY)). }
  destruct Hxy as [Hx Hy].
  pose proof (grain_ticks oracle _ _ _ k x y (mkWorld (set t0 x y SAND) d)
                Hx Hy HG0 HG) as (_ & _ & _ & _ & Hp & Ho).
  split; [done|]. exact Ho.
Qed.

Lemma sand_grain_falls_gravity_rows_per_tick_witness :
  let t := this (exec (ticks (always 0) 9) (mkWorld (set blank_10x10 5 0 SAND) 0)) in
  let row := Z.min (0 + Z.of_nat 9 * gravityStrength (parent blank_10x10))
                   (height blank_10x10 - 1) in
  aget (grid t) (row * width blank_10x10 + 5) = Some SAND
  ∧ ∀ j m, j ≠ row * width blank_10x10 + 5 → aget (grid t) j = Some m → m = EMPTY.
Proof.
  apply (sand_grain_falls_gravity_rows_per_tick (always 0) blank_10x10 5 0 0 9).
  - repeat split; vm_compute; congruence.
  - apply Forall_forall. by intros m [-> _]%elem_of_replicate.
  - reflexivity.
  - vm_compute. discriminate.
Defined.

(** ** The sweeps *)







(** ** The basic variant *)

Section BasicKeeps.
Variable oracle : nat → Q.
Variable I : Basic.Grid → Prop.
Hypothesis I_swap : ∀ t i j, I t → I (Basic.swap t i j).

(** Every write of the basic engine is a swap. *)
Lemma Basic_updateSand_loop_keeps n g i x y :
  Basic.keeps I (Basic.updateSand_loop n g i x y).
Proof.
  revert g. induction n as [|n IH]; intros g w HI; [done|].
  unfold Basic.exec. cbn [Basic.updateSand_loop].
  unfold Basic.bind, Basic.gets, Basic.move, Basic.modify, Basic.ret. cbn [fst snd id].
  repeat (case_match; cbn [fst snd negb Basic.this]; try done);
    apply IH; cbn [Basic.this]; by apply I_swap.
Qed.

Lemma Basic_updateWater_loop_keeps n g i x y :
  Basic.keeps I (Basic.updateWater_loop oracle n g i x y).
Proof.
  revert g. induction n as [|n IH]; intros g w HI; [done|].
  unfold Basic.exec. cbn [Basic.updateWater_loop].
  unfold Basic.bind, Basic.gets, Basic.move, Basic.modify, Basic.ret, Basic.random.
  cbn [fst snd id].
  repeat (case_match; cbn [fst snd negb Basic.this]; try done);
    apply IH; cbn [Basic.this]; by apply I_swap.
Qed.

Lemma Basic_for_each_keeps {A} (l : list A) (body : A → Basic.Sim unit) :
  (∀ a, Basic.keeps I (body a)) → Basic.keeps I (Basic.for_each l body).
Proof.
  intros Hb. induction l as [|a l IH]; intros w HI; [done|].
  apply IH. by apply Hb.
Qed.

Lemma Basic_rule_keeps i x y : Basic.keeps I (Basic.rule oracle i x y).
Proof.
  intros w HI. unfold Basic.exec, Basic.rule, Basic.bind, Basic.gets. cbn [fst snd].
  destruct (aget (Basic.grid (Basic.this w)) i) as [[]|]; try done.
  - by apply Basic_updateSand_loop_keeps.
  - by apply Basic_updateWater_loop_keeps.
Qed.

Lemma Basic_update_keeps : Basic.keeps I (Basic.update oracle).
Proof.
  intros w HI. unfold Basic.exec, Basic.update, Basic.bind, Basic.gets. cbn [fst snd].
  apply Basic_for_each_keeps; [|done]. intros y. apply Basic_for_each_keeps.
  intros x. apply Basic_rule_keeps.
Qed.

Lemma Basic_ticks_keeps n : Basic.keeps I (Basic.ticks oracle n).
Proof.
  induction n as [|n IH]; intros w HI; [done|].
  apply IH. by apply Basic_update_keeps.
Qed.

End BasicKeeps.

(** The basic engine only moves cells: over any number of ticks, at any
    gravity strength and for any random values, the number of cells of each
    material is conserved, and so are the dimensions of the grid. *)
Theorem Basic_ticks_conserve_materials (oracle : nat → Q) (w : Basic.World)
    (n : nat) (m : Basic.Material) :
  let t' := Basic.this (Basic.exec (Basic.ticks oracle n) w) in
  Basic.cells_of m t' = Basic.cells_of m (Basic.this w)
  ∧ Basic.width t' = Basic.width (Basic.this w)
  ∧ Basic.height t' = Basic.height (Basic.this w)
  ∧ length (Basic.grid t') = length (Basic.grid (Basic.this w)).
Proof.
  apply (Basic_ticks_keeps oracle (λ t,
    Basic.cells_of m t = Basic.cells_of m (Basic.this w)
    ∧ Basic.width t = Basic.width (Basic.this w)
    ∧ Basic.height t = Basic.height (Basic.this w)
    ∧ length (Basic.grid t) = length (Basic.grid (Basic.this w)))); [|done].
  intros t i j HI. unfold Basic.swap. destruct (_ && _); [|done].
  unfold Basic.cells_of in *. simpl. by rewrite count_occ_aswap, length_aswap.
Qed.

Section BasicWalls.
Variable oracle : nat → Q.
Variable W : Z → Prop.
Implicit Types (t : Basic.Grid) (w : Basic.World).

Lemma Basic_isEmpty_cell t j :
  Basic.isEmpty t j = true → aget (Basic.grid t) j = Some Basic.EMPTY.
Proof.
  unfold Basic.isEmpty. destruct (_ || _); [done|]. by intros ?%bool_decide_eq_true.
Qed.

Lemma Basic_isWater_cell t j :
  Basic.isWater t j = true → aget (Basic.grid t) j = Some Basic.WATER.
Proof.
  unfold Basic.isWater. destruct (_ || _); [done|]. by intros ?%bool_decide_eq_true.
Qed.

Lemma Basic_not_wall t i m :
  Basic.walls_stand W t → aget (Basic.grid t) i = Some m → m ≠ Basic.WALL → ¬ W i.
Proof. intros (_ & HW) Hi Hm HWi. apply HW in HWi. congruence. Qed.

Lemma Basic_isEmpty_notW t j :
  Basic.isEmpty t j = true → Basic.walls_stand W t → ¬ W j.
Proof. intros Hj%Basic_isEmpty_cell HI. by eapply Basic_not_wall. Qed.

Lemma Basic_sinkable_notW t j :
  Basic.isEmpty t j || Basic.isWater t j = true → Basic.walls_stand W t → ¬ W j.
Proof.
  intros [Hj%Basic_isEmpty_cell|Hj%Basic_isWater_cell]%orb_true_iff HI;
    by eapply Basic_not_wall.
Qed.

Lemma Basic_ws_swap t i j :
  Basic.walls_stand W t → ¬ W i → ¬ W j → Basic.walls_stand W (Basic.swap t i j).
Proof.
  intros (Hg & HW) Hi Hj. unfold Basic.swap.
  destruct (_ && _) eqn:E; [|done].
  rewrite !andb_true_iff, !Z.leb_le, !Z.ltb_lt in E. unfold Basic.grid_length in E.
  split; [done|]. simpl. intros k Hk. rewrite aget_aswap by lia.
  repeat case_decide; subst; try done. by apply HW.
Qed.

Lemma Basic_ws_fuel t :
  Basic.walls_stand W t →
  Z.to_nat (gravityStrength (Basic.parent t)) = 0%nat
  ∨ Z.to_nat (gravityStrength (Basic.parent t)) = 1%nat.
Proof. intros (Hg & _). lia. Qed.

Ltac basic_ws :=
  split_guards; apply Basic_ws_swap;
    [ done | done
    | first [ by eapply Basic_sinkable_notW | by eapply Basic_isEmpty_notW ] ].

Lemma Basic_ws_updateSand i x y :
  ¬ W i → Basic.keeps (Basic.walls_stand W) (Basic.updateSand i x y).
Proof.
  intros Hi w HI. unfold Basic.exec, Basic.updateSand, Basic.bind, Basic.gets.
  cbn [fst snd]. destruct (Basic_ws_fuel _ HI) as [-> | ->]; [done|].
  cbn [Basic.updateSand_loop].
  unfold Basic.bind, Basic.gets, Basic.move, Basic.modify, Basic.ret. cbn [fst snd id].
  rewrite !Z.mul_0_l, !Z.add_0_r.
  repeat (case_match; cbn [fst snd negb Basic.this]; try done); basic_ws.
Qed.

Lemma Basic_ws_updateWater i x y :
  ¬ W i → Basic.keeps (Basic.walls_stand W) (Basic.updateWater oracle i x y).
Proof.
  intros Hi w HI. unfold Basic.exec, Basic.updateWater, Basic.bind, Basic.gets.
  cbn [fst snd]. destruct (Basic_ws_fuel _ HI) as [-> | ->]; [done|].
  cbn [Basic.updateWater_loop].
  unfold Basic.bind, Basic.gets, Basic.move, Basic.modify, Basic.ret, Basic.random.
  cbn [fst snd id]. rewrite !Z.mul_0_l, !Z.add_0_r.
  repeat (case_match; cbn [fst snd negb Basic.this]; try done); basic_ws.
Qed.

Lemma Basic_ws_ticks n :
  Basic.keeps (Basic.walls_stand W) (Basic.ticks oracle n).
Proof.
  induction n as [|n IH]; intros w HI; [done|]. apply IH.
  unfold Basic.exec, Basic.update, Basic.bind, Basic.gets. cbn [fst snd].
  apply (Basic_for_each_keeps (Basic.walls_stand W)); [|done].
  intros y. apply Basic_for_each_keeps.
  intros x w1 HI1. unfold Basic.exec, Basic.rule, Basic.bind, Basic.gets. cbn [fst snd].
  destruct (aget (Basic.grid (Basic.this w1)) (y * Basic.width (Basic.this w) + x))
    as [m|] eqn:E; [|done].
  assert (m ≠ Basic.WALL → ¬ W (y * Basic.width (Basic.this w) + x)) as Hi
    by (by eapply Basic_not_wall).
  destruct m; try done.
  - by apply Basic_ws_updateSand; auto.
  - by apply Basic_ws_updateWater; auto.
Qed.

End BasicWalls.

(** In the basic variant, at a gravity strength of at most 1, every cell
    that holds Wall still holds Wall at the same index after any number of
    ticks, whatever the other cells hold and whatever the random source
    returns. *)
Theorem Basic_walls_stand (oracle : nat → Q) (w : Basic.World) (n : nat) (i : Z) :
  gravityStrength (Basic.parent (Basic.this w)) ≤ 1 →
  aget (Basic.grid (Basic.this w)) i = Some Basic.WALL →
  aget (Basic.grid (Basic.this (Basic.exec (Basic.ticks oracle n) w))) i
  = Some Basic.WALL.
Proof.
  intros Hg Hi.
  pose proof (Basic_ws_ticks oracle
                (λ j, aget (Basic.grid (Basic.this w)) j = Some Basic.WALL) n w) as H.
  destruct H as (_ & H); [by split|]. by apply H.
Qed.

Lemma Basic_walls_stand_witness :
  aget (Basic.grid (Basic.this (Basic.exec (Basic.ticks (always 0) 4) Basic.pile))) 3
  = Some Basic.WALL.
Proof.
  apply (Basic_walls_stand (always 0) Basic.pile 4 3).
  - vm_compute. discriminate.
  - reflexivity.
Defined.



Lemma Basic_get_EMPTY (t : Basic.Grid) x y :
  Basic.get t x y = Some (Basic.material_id Basic.EMPTY) →
  Basic.inBounds t x y = true
  ∧ aget (Basic.grid t) (y * Basic.width t + x) = Some Basic.EMPTY.
Proof.
  unfold Basic.get. destruct (Basic.inBounds t x y); [|done]. split; [done|].
  by destruct (aget (Basic.grid t) (y * Basic.width t + x)) as [[]|].
Qed.

(** The brush of the basic variant only writes cells that hold Empty: any
    other cell keeps its material, and a brush of Empty changes nothing. *)
Theorem Basic_setCircle_spares_cells (oracle : nat → Q) (w : Basic.World)
    (x y : Z) (material : Basic.Material) (radius : Z) (probability : Q) :
  (∀ i m, aget (Basic.grid (Basic.this w)) i = Some m → m ≠ Basic.EMPTY →
     aget (Basic.grid (Basic.this
        (Basic.exec (Basic.setCircle oracle x y material radius probability) w))) i
     = Some m)
  ∧ Basic.this (Basic.exec (Basic.setCircle oracle x y Basic.EMPTY radius probability) w)
    = Basic.this w.
Proof.
  assert (∀ (I : Basic.Grid → Prop) mat,
    (∀ t x' y', I t → Basic.get t x' y' = Some (Basic.material_id Basic.EMPTY) →
                I (Basic.set t x' y' mat)) →
    Basic.keeps I (Basic.setCircle oracle x y mat radius probability)) as Hkeeps.
  { intros I mat HI. unfold Basic.setCircle.
    apply Basic_for_each_keeps. intros j. apply Basic_for_each_keeps. intros i w1 Hw1.
    unfold Basic.exec, Basic.when, Basic.bind, Basic.gets, Basic.random, Basic.modify,
      Basic.ret.
    repeat (case_match; cbn [fst snd id Basic.this]; try done).
    split_guards. apply HI; [done|]. by eapply bool_decide_eq_true_1. }
  split.
  - intros i m Hi Hm.
    apply (Hkeeps (λ t, aget (Basic.grid t) i = Some m) material); [|done].
    intros t x' y' Ht [Hb He]%Basic_get_EMPTY. unfold Basic.set. rewrite Hb. simpl.
    rewrite aget_aset_ne; [done|]. intros <-. congruence.
  - apply (Hkeeps (λ t, t = Basic.this w) Basic.EMPTY); [|done].
    intros t x' y' -> [Hb He]%Basic_get_EMPTY. unfold Basic.set. rewrite Hb.
    rewrite aset_same by done. by destruct (Basic.this w).
Qed.

Lemma Basic_setCircle_spares_cells_witness :
  aget (Basic.grid (Basic.this
    (Basic.exec (Basic.setCircle (always 0) 0 1 Basic.SAND 1 1) Basic.pile))) 3
  = Some Basic.WALL.
Proof.
  assert (Basic.WALL ≠ Basic.EMPTY) as Hne by discriminate.
  exact (proj1 (Basic_setCircle_spares_cells (always 0) Basic.pile 0 1 Basic.SAND 1 1%Q)
           3 Basic.WALL eq_refl Hne).
Defined.
